(** * The realtime voice session of [VoiceInterface.tsx]

    A shallow embedding of the voice pipeline of the component
    [VoiceInterface] (src/components/VoiceInterface.tsx) together with the
    two places of the application that drive it ([App.tsx] for the props
    [active] and [mode], [connectLiveSession] for the transport).

    - JavaScript numbers are the type [number]: the three non-finite
      values and the finite ones, carried by a rational.  Every finite
      float is a rational, and every operation of the PCM codec is exact
      on the values it meets (a 24-bit significand times a 15- or 16-bit
      constant fits the 53 bits of a double, and a 16-bit integer over
      2^15 fits a float32), so the rational results below are the float
      results.  Audio clock values ([currentTime], [duration], the
      playback cursor) are doubles: the rational that the source's
      division or addition would give exactly is rounded to the nearest
      double by [double], ties to even.
    - Typed arrays are lists: [Int16Array] a list of [Z] in the 16-bit
      range (the conversion's wrap-around written out), [Uint8Array] a
      list of [byte].
    - The component is a record of its React state, its refs and the
      browser objects it created; each callback of the source is a
      function on that record, and [step] dispatches the events that the
      browser, the transport and the user can deliver. *)

From Stdlib Require Import ZArith QArith Qminmax Qabs Qround Lia Lqa List String Ascii.
From Stdlib.Strings Require Import Byte.
From stdpp Require Import base list gmap strings.

Local Open Scope Z_scope.

(** ** JavaScript numbers *)

Inductive number : Type :=
| NaN
| NegInf
| PosInf
| Fin (q : Q).

Module Num.

Definition Qltb (x y : Q) : bool := negb (Qle_bool y x).

(** [a < b] of JavaScript: false as soon as one side is [NaN]. *)
Definition lt (a b : number) : bool :=
  match a, b with
  | NaN, _ | _, NaN => false
  | NegInf, NegInf => false
  | NegInf, _ => true
  | _, NegInf => false
  | PosInf, _ => false
  | Fin _, PosInf => true
  | Fin x, Fin y => Qltb x y
  end.

(** [a > b]. *)
Definition gt (a b : number) : bool := lt b a.

(** [Math.min] and [Math.max] on two arguments: [NaN] is contagious. *)
Definition min (a b : number) : number :=
  match a, b with
  | NaN, _ | _, NaN => NaN
  | _, _ => if lt b a then b else a
  end.

Definition max (a b : number) : number :=
  match a, b with
  | NaN, _ | _, NaN => NaN
  | _, _ => if lt a b then b else a
  end.

Definition sgn (q : Q) : Z := Z.sgn (Qnum q).

Definition inf_of_sign (s : Z) : number :=
  if s =? 0 then NaN else if s <? 0 then NegInf else PosInf.

(** [a * b]: an infinity times zero is [NaN]. *)
Definition mul (a b : number) : number :=
  match a, b with
  | NaN, _ | _, NaN => NaN
  | Fin x, Fin y => Fin (x * y)
  | Fin x, PosInf | PosInf, Fin x => inf_of_sign (sgn x)
  | Fin x, NegInf | NegInf, Fin x => inf_of_sign (- sgn x)
  | PosInf, PosInf | NegInf, NegInf => PosInf
  | PosInf, NegInf | NegInf, PosInf => NegInf
  end.

(** [a / b] for the two divisions of the source, both by a finite
    value: the mean of a [Uint8Array] (0/0 is [NaN]) and the sample
    over 32768. *)
Definition div (a b : number) : number :=
  match a, b with
  | Fin x, Fin y =>
      if Qeq_bool y 0
      then inf_of_sign (sgn x)
      else Fin (x / y)
  | NaN, _ | _, NaN => NaN
  | PosInf, Fin y => if Qltb y 0 then NegInf else PosInf
  | NegInf, Fin y => if Qltb y 0 then PosInf else NegInf
  | Fin _, _ => Fin 0
  | _, _ => NaN
  end.

(** Truncation toward zero of a rational. *)
Definition trunc (q : Q) : Z := Z.quot (Qnum q) (Zpos (Qden q)).

(** Reduction of an integer to the signed 16-bit range. *)
Definition wrap16 (z : Z) : Z :=
  let m := z mod 65536 in
  if 32768 <=? m then m - 65536 else m.

(** [ToInt16], the conversion applied by a store into an
    [Int16Array]: non-finite values become 0, finite ones are truncated
    and reduced modulo 2^16. *)
Definition ToInt16 (x : number) : Z :=
  match x with
  | Fin q => wrap16 (trunc q)
  | _ => 0
  end.

End Num.

(** ** Doubles

    A finite double is a rational [m * 2^e] with [|m| <= 2^53] and
    [e >= -1074].  [double x] is the one nearest to [x], the even
    significand winning a tie, as the arithmetic of JavaScript rounds
    every result.  The exponent is not bounded above: the clock and the
    cursor count seconds and stay far below [2^1024], where a double
    would overflow. *)

Module Double.

(** [2^e], also for a negative exponent. *)
Definition pow2 (e : Z) : Q :=
  if 0 <=? e then inject_Z (2 ^ e) else / inject_Z (2 ^ (- e)).

(** The integer nearest to [t], the even one on a tie. *)
Definition rne (t : Q) : Z :=
  let f := Qfloor t in
  match (t - inject_Z f ?= 1 # 2)%Q with
  | Lt => f
  | Gt => f + 1
  | Eq => if Z.even f then f else f + 1
  end.

(** [floor (log2 a)] of a positive rational. *)
Definition ilog2 (a : Q) : Z :=
  let k := Z.log2 (Qnum a) - Z.log2 (Zpos (Qden a)) in
  if Qle_bool (pow2 k) a then k else k - 1.

(** The exponent of the last place of the doubles around [a]: 53
    significant bits, and the fixed spacing [2^-1074] of the subnormal
    range. *)
Definition exponent (a : Q) : Z := Z.max (ilog2 a - 52) (-1074).

(** Rounding of a positive rational. *)
Definition nearest (a : Q) : Q :=
  let e := exponent a in
  (inject_Z (rne (a / pow2 e)) * pow2 e)%Q.

End Double.

Definition double (x : Q) : Q :=
  let x := Qred x in
  match Qnum x with
  | Z0 => 0%Q
  | Zpos _ => Qred (Double.nearest x)
  | Zneg _ => Qred (- Double.nearest (- x))
  end.

Definition representable (f : Q) : Prop :=
  exists n e : Z, -1074 <= e /\ Z.abs n <= 2 ^ 53 /\ (f == inject_Z n * Double.pow2 e)%Q.

(** ** Typed arrays and exceptions *)

Inductive exn : Type :=
| RangeError
| InvalidCharacterError
| NotSupportedError.

Inductive result (A : Type) : Type :=
| Ok (a : A)
| Throw (e : exn).
Arguments Ok {A} a.
Arguments Throw {A} e.

Definition Float32Array := list number.
Definition Int16Array := list Z.
Definition Uint8Array := list byte.

(** The low eight bits of an integer, as a byte. *)
Definition byte_of_Z (z : Z) : byte :=
  byte_of_ascii (ascii_of_N (Z.to_N (z mod 256))).

Definition Z_of_byte (b : byte) : Z := Z.of_N (Byte.to_N b).

(** [new Uint8Array(int16.buffer)]: the little-endian bytes of each
    element. *)
Fixpoint int16_buffer (a : Int16Array) : Uint8Array :=
  match a with
  | [] => []
  | v :: r => byte_of_Z v :: byte_of_Z (v / 256) :: int16_buffer r
  end.

(** [new Int16Array(data.buffer)]: two bytes per element, low byte
    first; a [RangeError] when the byte length is odd. *)
Fixpoint int16_view (d : Uint8Array) : result Int16Array :=
  match d with
  | [] => Ok []
  | [_] => Throw RangeError
  | lo :: hi :: r =>
      match int16_view r with
      | Ok a => Ok (Num.wrap16 (Z_of_byte lo + 256 * Z_of_byte hi) :: a)
      | Throw e => Throw e
      end
  end.

(** ** The PCM codec *)

(** [Math.max(-1, Math.min(1, x))]. *)
Definition clamp (x : number) : number := Num.max (Fin (-1)) (Num.min (Fin 1) x).

(** The loop body of [createPcmBlob]: clamp, scale by [0x8000] below
    zero and by [0x7FFF] otherwise, store into the [Int16Array]. *)
Definition pcm_sample (x : number) : Z :=
  let s := clamp x in
  Num.ToInt16
    (if Num.lt s (Fin 0) then Num.mul s (Fin 32768) else Num.mul s (Fin 32767)).

Definition pcm_int16 (data : Float32Array) : Int16Array := map pcm_sample data.

(** The bytes that [createPcmBlob] hands to the text encoding. *)
Definition pcm_bytes (data : Float32Array) : Uint8Array := int16_buffer (pcm_int16 data).

Record AudioBuffer : Type := {
  numberOfChannels : nat;
  channelData : Float32Array;
  sampleRate : positive
}.

(** [buffer.duration]: frames over sample rate, in seconds, a double. *)
Definition duration (b : AudioBuffer) : Q :=
  double (Z.of_nat (length (channelData b)) # sampleRate b).

(** [decodeAudioData]: view the bytes as 16-bit samples, divide each by
    32768 and wrap the result in a mono 24 kHz buffer.
    [ctx.createBuffer] throws a [NotSupportedError] when asked for a
    buffer of zero frames. *)
Definition decodeAudioData (data : Uint8Array) : result AudioBuffer :=
  match int16_view data with
  | Ok data16 =>
      let float32 := map (fun v => Num.div (Fin (inject_Z v)) (Fin 32768)) data16 in
      match float32 with
      | [] => Throw NotSupportedError
      | _ :: _ =>
          Ok {| numberOfChannels := 1; channelData := float32; sampleRate := 24000 |}
      end
  | Throw e => Throw e
  end.

(** [y] is a finite number at most [eps] away from the finite number
    [x]. *)
Definition within (eps : Q) (x y : number) : Prop :=
  match x, y with
  | Fin a, Fin b => (Qabs (b - a) <= eps)%Q
  | _, _ => False
  end.

(** What decoding gives back for a sample [x] whose clamped value is
    [a]: for [a <= 0] a finite number less than one quantization step
    from [a]; for [a > 0] a finite number below [a], by at least
    [a/32768] and by less than [(1 + a)/32768], which is less than two
    steps; and zero when the sample is [NaN]. *)
Definition decoded_near (x y : number) : Prop :=
  match clamp x, y with
  | Fin a, Fin b =>
      ((a <= 0 -> Qabs (b - a) < 1 # 32768)
       /\ (0 < a -> a / 32768 <= a - b < (1 + a) / 32768))%Q
  | NaN, Fin b => (b == 0)%Q
  | _, _ => False
  end.

(** ** The transport text encoding

    [window.btoa] and [window.atob] are browser functions; they are
    written out here after the HTML standard (forgiving-base64), on
    strings whose characters are the bytes. *)

Module Base64.

Definition sextet_char (n : N) : ascii :=
  let c :=
    if (n <? 26)%N then (n + 65)%N
    else if (n <? 52)%N then (n + 71)%N
    else if (n <? 62)%N then (n - 4)%N
    else if (n =? 62)%N then 43%N
    else 47%N in
  ascii_of_N c.

Definition char_sextet (c : ascii) : option N :=
  let n := N_of_ascii c in
  if ((65 <=? n) && (n <=? 90))%N then Some (n - 65)%N
  else if ((97 <=? n) && (n <=? 122))%N then Some (n - 71)%N
  else if ((48 <=? n) && (n <=? 57))%N then Some (n + 4)%N
  else if (n =? 43)%N then Some 62%N
  else if (n =? 47)%N then Some 63%N
  else None.

Definition pad : ascii := "="%char.

Fixpoint encode (l : list N) : list ascii :=
  match l with
  | [] => []
  | [a] =>
      let n := (a * 16)%N in
      [sextet_char (n / 64); sextet_char (n mod 64); pad; pad]
  | [a; b] =>
      let n := (a * 1024 + b * 4)%N in
      [sextet_char (n / 4096); sextet_char (n / 64 mod 64);
       sextet_char (n mod 64); pad]
  | a :: b :: c :: r =>
      let n := (a * 65536 + b * 256 + c)%N in
      sextet_char (n / 262144) :: sextet_char (n / 4096 mod 64)
        :: sextet_char (n / 64 mod 64) :: sextet_char (n mod 64)
        :: encode r
  end.

Fixpoint decode (l : list N) : list N :=
  match l with
  | [] | [_] => []
  | [a; b] => [((a * 64 + b) / 16)%N]
  | [a; b; c] =>
      let n := (a * 4096 + b * 64 + c)%N in
      [(n / 1024)%N; (n / 4 mod 256)%N]
  | a :: b :: c :: d :: r =>
      let n := (a * 262144 + b * 4096 + c * 64 + d)%N in
      (n / 65536)%N :: (n / 256 mod 256)%N :: (n mod 256)%N :: decode r
  end.

Definition is_whitespace (c : ascii) : bool :=
  let n := N_of_ascii c in
  ((n =? 9) || (n =? 10) || (n =? 12) || (n =? 13) || (n =? 32))%N.

(** Drop one or two trailing pad characters. *)
Definition strip_padding (l : list ascii) : list ascii :=
  match rev l with
  | p :: q :: r =>
      if Ascii.eqb p pad
      then if Ascii.eqb q pad then rev r else rev (q :: r)
      else l
  | _ => l
  end.

Fixpoint sextets (l : list ascii) : option (list N) :=
  match l with
  | [] => Some []
  | c :: r =>
      match char_sextet c, sextets r with
      | Some n, Some ns => Some (n :: ns)
      | _, _ => None
      end
  end.

Definition btoa (binary : string) : string :=
  string_of_list_ascii (encode (map N_of_ascii (list_ascii_of_string binary))).

Definition atob (data : string) : result string :=
  let l := filter (fun c => is_whitespace c = false) (list_ascii_of_string data) in
  let l := if (length l mod 4 =? 0)%nat then strip_padding l else l in
  if (length l mod 4 =? 1)%nat then Throw InvalidCharacterError
  else match sextets l with
       | Some ns => Ok (string_of_list_ascii (map ascii_of_N (decode ns)))
       | None => Throw InvalidCharacterError
       end.

(** The sextets of [encode] and its padding, apart: [encode l] is the
    characters of [unpadded l] followed by [padding l]. *)
Fixpoint unpadded (l : list N) : list N :=
  match l with
  | [] => []
  | [a] =>
      let n := (a * 16)%N in
      [(n / 64)%N; (n mod 64)%N]
  | [a; b] =>
      let n := (a * 1024 + b * 4)%N in
      [(n / 4096)%N; (n / 64 mod 64)%N; (n mod 64)%N]
  | a :: b :: c :: r =>
      let n := (a * 65536 + b * 256 + c)%N in
      (n / 262144)%N :: (n / 4096 mod 64)%N :: (n / 64 mod 64)%N :: (n mod 64)%N
        :: unpadded r
  end.

Fixpoint padding (l : list N) : list ascii :=
  match l with
  | [] => []
  | [_] => [pad; pad]
  | [_; _] => [pad]
  | _ :: _ :: _ :: r => padding r
  end.

(** A sextet is written as a character of the alphabet: one that reads
    back as the sextet and is neither the pad nor white space. *)
Definition sextet_ok (n : N) : bool :=
  match char_sextet (sextet_char n) with
  | Some m => (m =? n)%N
  | None => false
  end
  && negb (Ascii.eqb (sextet_char n) pad)
  && negb (is_whitespace (sextet_char n)).

End Base64.

(** [uint8ArrayToBase64]: build the binary string one character per
    byte, then [btoa]. *)
Definition uint8ArrayToBase64 (bytes : Uint8Array) : string :=
  Base64.btoa (string_of_list_ascii (map ascii_of_byte bytes)).

(** [base64ToUint8Array]: [atob], then one byte per character code. *)
Definition base64ToUint8Array (base64 : string) : result Uint8Array :=
  match Base64.atob base64 with
  | Ok binary => Ok (map byte_of_ascii (list_ascii_of_string binary))
  | Throw e => Throw e
  end.

Record Blob : Type := {
  data : string;
  mimeType : string
}.

(** [createPcmBlob]. *)
Definition createPcmBlob (samples : Float32Array) : Blob :=
  {| data := uint8ArrayToBase64 (pcm_bytes samples);
     mimeType := "audio/pcm;rate=16000" |}.

(** Encoding a frame as the capture path does, and decoding the text of
    the blob as the playback path does. *)
Definition pcm_roundtrip (samples : Float32Array) : result Float32Array :=
  match base64ToUint8Array (data (createPcmBlob samples)) with
  | Ok audioData =>
      match decodeAudioData audioData with
      | Ok b => Ok (channelData b)
      | Throw e => Throw e
      end
  | Throw e => Throw e
  end.

(** The round trip stays within [eps] of the clamped samples. *)
Definition roundtrip_within (eps : Q) (samples : Float32Array) : Prop :=
  exists out,
    pcm_roundtrip samples = Ok out
    /\ Forall2 (fun x y => within eps (clamp x) y) samples out.

(** ** The component: data *)

Inductive CollaborationMode : Type := Collaborative | Competitive | Hierarchical.
Inductive Status : Type := connecting | connected | error.
Inductive VoiceState : Type := listening | speaking | idle.
Inductive Speaker : Type := user | ai.

Record Transcript : Type := {
  text : string;
  source : Speaker
}.

(** The three paths of a [LiveServerMessage] that the handler reads:
    [serverContent?.modelTurn?.parts?.[0]?.inlineData?.data],
    [serverContent?.outputTranscription?.text] and
    [serverContent?.inputTranscription?.text]; [None] is [undefined]. *)
Record LiveServerMessage : Type := {
  inlineData : option string;
  outputTranscription : option string;
  inputTranscription : option string
}.

(** Truthiness of an optional string: defined and not empty. *)
Definition truthy (s : option string) : option string :=
  match s with
  | Some EmptyString | None => None
  | Some t => Some t
  end.

#[global] Instance CollaborationMode_eq_dec : EqDecision CollaborationMode.
Proof. solve_decision. Defined.

#[global] Instance Speaker_eq_dec : EqDecision Speaker.
Proof. solve_decision. Defined.

(** *** Browser objects

    Every object the component creates is kept in a table of the page,
    and is named by its index there. *)

(** A [ScriptProcessorNode] with its [onaudioprocess] handler.  The
    handler is a closure of the render in which [startSession] was
    called: the [isMuted] it tests is that render's constant. *)
Record ScriptProcessor : Type := {
  sp_connected : bool;
  sp_isMuted : bool
}.

Inductive ReadyState : Type := Connecting | Open | Closed.

#[global] Instance ReadyState_eq_dec : EqDecision ReadyState.
Proof. solve_decision. Defined.

(** A live session returned by [connectLiveSession]: the callbacks hold
    the playback context of their [startSession] call; [sent] lists the
    blobs handed to [sendRealtimeInput]. *)
Record LiveSession : Type := {
  readyState : ReadyState;
  cb_ctx : nat;
  systemMode : CollaborationMode;
  sent : list Blob
}.

(** An [AudioBufferSourceNode] that was started. *)
Record SourceNode : Type := {
  src_ctx : nat;
  src_buffer : AudioBuffer;
  src_start : Q
}.

(** A [startSession] call suspended at [await getUserMedia]: its local
    [ctx] and the [isMuted] and [mode] of its closure. *)
Record PendingStart : Type := {
  ps_ctx : nat;
  ps_isMuted : bool;
  ps_mode : CollaborationMode
}.

Inductive LogLine : Type :=
| LiveSessionConnected
| LiveSessionClosed
| LiveSessionError
| FailedToStartVoiceSession.

(** What one pass of [renderVisualizer] draws from. *)
Record Drawing : Type := {
  isOutputDominant : bool;
  drawn : Uint8Array;
  glowEnergy : number
}.

Record Props : Type := {
  active : bool;
  mode : CollaborationMode
}.

Record State : Type := {
  status : Status;
  isMuted : bool;
  voiceState : VoiceState;
  transcript : option Transcript
}.

(** The refs.  [transcriptTimeoutRef] is [true] while the timer it names
    is pending: each [setTimeout] of the source follows a [clearTimeout]
    of the previous id, so one flag stands for ref and timer. *)
Record Refs : Type := {
  audioContextRef : option nat;
  inputNodeRef : option nat;
  streamRef : option nat;
  nextStartTimeRef : Q;
  sourcesRef : gset nat;
  sessionRef : option nat;
  animationFrameRef : nat;
  inputAnalyserRef : option nat;
  outputAnalyserRef : option nat;
  transcriptTimeoutRef : bool
}.

(** The page: [contexts] holds [true] for a closed playback context,
    [streams] holds [true] for a microphone stream whose tracks were
    stopped, [frames] the pending animation-frame requests, [uncaught]
    the exceptions that left a callback uncaught. *)
Record Page : Type := {
  contexts : list bool;
  streams : list bool;
  processors : list ScriptProcessor;
  sessions : list LiveSession;
  sources : list SourceNode;
  frames : list nat;
  frameCount : nat;
  pending : list PendingStart;
  console : list LogLine;
  uncaught : list exn;
  canvas : option Drawing
}.

Record VoiceInterface : Type := {
  props : Props;
  state : State;
  refs : Refs;
  page : Page
}.

(** *** Field updates

    Rocq records have no update syntax; [set_f v c] is [c] with field
    [f] replaced by [v], one definition per field that the source
    assigns. *)

Definition with_props (f : Props -> Props) (c : VoiceInterface) : VoiceInterface :=
  {| props := f (props c); state := state c; refs := refs c; page := page c |}.

Definition with_state (f : State -> State) (c : VoiceInterface) : VoiceInterface :=
  {| props := props c; state := f (state c); refs := refs c; page := page c |}.

Definition with_refs (f : Refs -> Refs) (c : VoiceInterface) : VoiceInterface :=
  {| props := props c; state := state c; refs := f (refs c); page := page c |}.

Definition with_page (f : Page -> Page) (c : VoiceInterface) : VoiceInterface :=
  {| props := props c; state := state c; refs := refs c; page := f (page c) |}.

Definition set_status (v : Status) : VoiceInterface -> VoiceInterface :=
  with_state (fun r =>
    {| status := v; isMuted := isMuted r; voiceState := voiceState r;
       transcript := transcript r |}).

Definition set_isMuted (v : bool) : VoiceInterface -> VoiceInterface :=
  with_state (fun r =>
    {| status := status r; isMuted := v; voiceState := voiceState r;
       transcript := transcript r |}).

Definition set_voiceState (v : VoiceState) : VoiceInterface -> VoiceInterface :=
  with_state (fun r =>
    {| status := status r; isMuted := isMuted r; voiceState := v;
       transcript := transcript r |}).

Definition set_transcript (v : option Transcript) : VoiceInterface -> VoiceInterface :=
  with_state (fun r =>
    {| status := status r; isMuted := isMuted r;
       voiceState := voiceState r; transcript := v |}).

Definition set_audioContextRef (v : option nat) : VoiceInterface -> VoiceInterface :=
  with_refs (fun r =>
    {| audioContextRef := v; inputNodeRef := inputNodeRef r;
       streamRef := streamRef r;
       nextStartTimeRef := nextStartTimeRef r;
       sourcesRef := sourcesRef r; sessionRef := sessionRef r;
       animationFrameRef := animationFrameRef r;
       inputAnalyserRef := inputAnalyserRef r;
       outputAnalyserRef := outputAnalyserRef r;
       transcriptTimeoutRef := transcriptTimeoutRef r |}).

Definition set_inputNodeRef (v : option nat) : VoiceInterface -> VoiceInterface :=
  with_refs (fun r =>
    {| audioContextRef := audioContextRef r; inputNodeRef := v;
       streamRef := streamRef r;
       nextStartTimeRef := nextStartTimeRef r;
       sourcesRef := sourcesRef r; sessionRef := sessionRef r;
       animationFrameRef := animationFrameRef r;
       inputAnalyserRef := inputAnalyserRef r;
       outputAnalyserRef := outputAnalyserRef r;
       transcriptTimeoutRef := transcriptTimeoutRef r |}).

Definition set_streamRef (v : option nat) : VoiceInterface -> VoiceInterface :=
  with_refs (fun r =>
    {| audioContextRef := audioContextRef r;
       inputNodeRef := inputNodeRef r; streamRef := v;
       nextStartTimeRef := nextStartTimeRef r;
       sourcesRef := sourcesRef r; sessionRef := sessionRef r;
       animationFrameRef := animationFrameRef r;
       inputAnalyserRef := inputAnalyserRef r;
       outputAnalyserRef := outputAnalyserRef r;
       transcriptTimeoutRef := transcriptTimeoutRef r |}).

Definition set_nextStartTimeRef (v : Q) : VoiceInterface -> VoiceInterface :=
  with_refs (fun r =>
    {| audioContextRef := audioContextRef r;
       inputNodeRef := inputNodeRef r; streamRef := streamRef r;
       nextStartTimeRef := v; sourcesRef := sourcesRef r;
       sessionRef := sessionRef r;
       animationFrameRef := animationFrameRef r;
       inputAnalyserRef := inputAnalyserRef r;
       outputAnalyserRef := outputAnalyserRef r;
       transcriptTimeoutRef := transcriptTimeoutRef r |}).

Definition set_sourcesRef (v : gset nat) : VoiceInterface -> VoiceInterface :=
  with_refs (fun r =>
    {| audioContextRef := audioContextRef r;
       inputNodeRef := inputNodeRef r; streamRef := streamRef r;
       nextStartTimeRef := nextStartTimeRef r; sourcesRef := v;
       sessionRef := sessionRef r;
       animationFrameRef := animationFrameRef r;
       inputAnalyserRef := inputAnalyserRef r;
       outputAnalyserRef := outputAnalyserRef r;
       transcriptTimeoutRef := transcriptTimeoutRef r |}).

Definition set_sessionRef (v : option nat) : VoiceInterface -> VoiceInterface :=
  with_refs (fun r =>
    {| audioContextRef := audioContextRef r;
       inputNodeRef := inputNodeRef r; streamRef := streamRef r;
       nextStartTimeRef := nextStartTimeRef r;
       sourcesRef := sourcesRef r; sessionRef := v;
       animationFrameRef := animationFrameRef r;
       inputAnalyserRef := inputAnalyserRef r;
       outputAnalyserRef := outputAnalyserRef r;
       transcriptTimeoutRef := transcriptTimeoutRef r |}).

Definition set_animationFrameRef (v : nat) : VoiceInterface -> VoiceInterface :=
  with_refs (fun r =>
    {| audioContextRef := audioContextRef r;
       inputNodeRef := inputNodeRef r; streamRef := streamRef r;
       nextStartTimeRef := nextStartTimeRef r;
       sourcesRef := sourcesRef r; sessionRef := sessionRef r;
       animationFrameRef := v; inputAnalyserRef := inputAnalyserRef r;
       outputAnalyserRef := outputAnalyserRef r;
       transcriptTimeoutRef := transcriptTimeoutRef r |}).

Definition set_inputAnalyserRef (v : option nat) : VoiceInterface -> VoiceInterface :=
  with_refs (fun r =>
    {| audioContextRef := audioContextRef r;
       inputNodeRef := inputNodeRef r; streamRef := streamRef r;
       nextStartTimeRef := nextStartTimeRef r;
       sourcesRef := sourcesRef r; sessionRef := sessionRef r;
       animationFrameRef := animationFrameRef r; inputAnalyserRef := v;
       outputAnalyserRef := outputAnalyserRef r;
       transcriptTimeoutRef := transcriptTimeoutRef r |}).

Definition set_outputAnalyserRef (v : option nat) : VoiceInterface -> VoiceInterface :=
  with_refs (fun r =>
    {| audioContextRef := audioContextRef r;
       inputNodeRef := inputNodeRef r; streamRef := streamRef r;
       nextStartTimeRef := nextStartTimeRef r;
       sourcesRef := sourcesRef r; sessionRef := sessionRef r;
       animationFrameRef := animationFrameRef r;
       inputAnalyserRef := inputAnalyserRef r; outputAnalyserRef := v;
       transcriptTimeoutRef := transcriptTimeoutRef r |}).

Definition set_transcriptTimeoutRef (v : bool) : VoiceInterface -> VoiceInterface :=
  with_refs (fun r =>
    {| audioContextRef := audioContextRef r;
       inputNodeRef := inputNodeRef r; streamRef := streamRef r;
       nextStartTimeRef := nextStartTimeRef r;
       sourcesRef := sourcesRef r; sessionRef := sessionRef r;
       animationFrameRef := animationFrameRef r;
       inputAnalyserRef := inputAnalyserRef r;
       outputAnalyserRef := outputAnalyserRef r;
       transcriptTimeoutRef := v |}).

Definition set_contexts (v : list bool) : VoiceInterface -> VoiceInterface :=
  with_page (fun r =>
    {| contexts := v; streams := streams r; processors := processors r;
       sessions := sessions r; sources := sources r;
       frames := frames r; frameCount := frameCount r;
       pending := pending r; console := console r;
       uncaught := uncaught r; canvas := canvas r |}).

Definition set_streams (v : list bool) : VoiceInterface -> VoiceInterface :=
  with_page (fun r =>
    {| contexts := contexts r; streams := v; processors := processors r;
       sessions := sessions r; sources := sources r;
       frames := frames r; frameCount := frameCount r;
       pending := pending r; console := console r;
       uncaught := uncaught r; canvas := canvas r |}).

Definition set_processors (v : list ScriptProcessor) : VoiceInterface -> VoiceInterface :=
  with_page (fun r =>
    {| contexts := contexts r; streams := streams r; processors := v;
       sessions := sessions r; sources := sources r;
       frames := frames r; frameCount := frameCount r;
       pending := pending r; console := console r;
       uncaught := uncaught r; canvas := canvas r |}).

Definition set_sessions (v : list LiveSession) : VoiceInterface -> VoiceInterface :=
  with_page (fun r =>
    {| contexts := contexts r; streams := streams r;
       processors := processors r; sessions := v; sources := sources r;
       frames := frames r; frameCount := frameCount r;
       pending := pending r; console := console r;
       uncaught := uncaught r; canvas := canvas r |}).

Definition set_sources (v : list SourceNode) : VoiceInterface -> VoiceInterface :=
  with_page (fun r =>
    {| contexts := contexts r; streams := streams r;
       processors := processors r; sessions := sessions r;
       sources := v; frames := frames r; frameCount := frameCount r;
       pending := pending r; console := console r;
       uncaught := uncaught r; canvas := canvas r |}).

Definition set_frames (v : list nat) : VoiceInterface -> VoiceInterface :=
  with_page (fun r =>
    {| contexts := contexts r; streams := streams r;
       processors := processors r; sessions := sessions r;
       sources := sources r; frames := v; frameCount := frameCount r;
       pending := pending r; console := console r;
       uncaught := uncaught r; canvas := canvas r |}).

Definition set_frameCount (v : nat) : VoiceInterface -> VoiceInterface :=
  with_page (fun r =>
    {| contexts := contexts r; streams := streams r;
       processors := processors r; sessions := sessions r;
       sources := sources r; frames := frames r; frameCount := v;
       pending := pending r; console := console r;
       uncaught := uncaught r; canvas := canvas r |}).

Definition set_pending (v : list PendingStart) : VoiceInterface -> VoiceInterface :=
  with_page (fun r =>
    {| contexts := contexts r; streams := streams r;
       processors := processors r; sessions := sessions r;
       sources := sources r; frames := frames r;
       frameCount := frameCount r; pending := v; console := console r;
       uncaught := uncaught r; canvas := canvas r |}).

Definition set_console (v : list LogLine) : VoiceInterface -> VoiceInterface :=
  with_page (fun r =>
    {| contexts := contexts r; streams := streams r;
       processors := processors r; sessions := sessions r;
       sources := sources r; frames := frames r;
       frameCount := frameCount r; pending := pending r; console := v;
       uncaught := uncaught r; canvas := canvas r |}).

Definition set_uncaught (v : list exn) : VoiceInterface -> VoiceInterface :=
  with_page (fun r =>
    {| contexts := contexts r; streams := streams r;
       processors := processors r; sessions := sessions r;
       sources := sources r; frames := frames r;
       frameCount := frameCount r; pending := pending r;
       console := console r; uncaught := v; canvas := canvas r |}).

Definition set_canvas (v : option Drawing) : VoiceInterface -> VoiceInterface :=
  with_page (fun r =>
    {| contexts := contexts r; streams := streams r;
       processors := processors r; sessions := sessions r;
       sources := sources r; frames := frames r;
       frameCount := frameCount r; pending := pending r;
       console := console r; uncaught := uncaught r; canvas := v |}).

(** ** The component: operations *)

(** State right after mount with [active = false]: the mount effect runs
    [stopSession] on the fresh refs, which leaves them as they are. *)
Definition mount : VoiceInterface :=
  {| props := {| active := false; mode := Collaborative |};
     state := {| status := connecting; isMuted := false;
                 voiceState := idle; transcript := None |};
     refs := {| audioContextRef := None; inputNodeRef := None;
                streamRef := None; nextStartTimeRef := 0;
                sourcesRef := ∅; sessionRef := None;
                animationFrameRef := 0%nat; inputAnalyserRef := None;
                outputAnalyserRef := None; transcriptTimeoutRef := false |};
     page := {| contexts := []; streams := []; processors := [];
                sessions := []; sources := []; frames := [];
                frameCount := 0%nat; pending := []; console := [];
                uncaught := []; canvas := None |} |}.

(** [setTranscript], with the effect on [[transcript]] that follows the
    render: a non-null transcript restarts the four-second timer. *)
Definition setTranscript (t : option Transcript) (c : VoiceInterface) : VoiceInterface :=
  let c := set_transcript t c in
  match t with
  | Some _ => set_transcriptTimeoutRef true c
  | None => c
  end.

(** The timer fires: [setTranscript(null)]. *)
Definition transcriptTimeout (c : VoiceInterface) : VoiceInterface :=
  if transcriptTimeoutRef (refs c)
  then setTranscript None (set_transcriptTimeoutRef false c)
  else c.

Definition log (l : LogLine) (c : VoiceInterface) : VoiceInterface :=
  set_console (console (page c) ++ [l]) c.

(** [stopSession]. *)
Definition stopSession (c : VoiceInterface) : VoiceInterface :=
  let c :=
    if (animationFrameRef (refs c) =? 0)%nat then c
    else set_frames
           (filter (fun i => i ≠ animationFrameRef (refs c)) (frames (page c))) c in
  let c := set_transcriptTimeoutRef false c in
  let c :=
    match streamRef (refs c) with
    | Some s => set_streamRef None (set_streams (<[s := true]> (streams (page c))) c)
    | None => c
    end in
  let c :=
    match inputNodeRef (refs c) with
    | Some n =>
        set_inputNodeRef None
          (set_processors
             (alter (fun p => {| sp_connected := false; sp_isMuted := sp_isMuted p |})
                n (processors (page c))) c)
    | None => c
    end in
  let c :=
    match audioContextRef (refs c) with
    | Some a => set_audioContextRef None (set_contexts (<[a := true]> (contexts (page c))) c)
    | None => c
    end in
  let c := set_sessionRef None c in
  let c := set_status connecting c in
  let c := set_voiceState idle c in
  setTranscript None c.

(** [playAudio]: [now] is the clock of [ctx] at the call, which
    [ctx.currentTime] reads as a double; [+=] is the addition of
    doubles. *)
Definition playAudio (buffer : AudioBuffer) (ctx : nat) (now : Q) (c : VoiceInterface)
  : VoiceInterface :=
  let src := length (sources (page c)) in
  let now := double now in
  let c :=
    if Num.Qltb (nextStartTimeRef (refs c)) now
    then set_nextStartTimeRef now c
    else c in
  let c :=
    set_sources
      (sources (page c) ++
         [{| src_ctx := ctx; src_buffer := buffer;
             src_start := nextStartTimeRef (refs c) |}]) c in
  let c :=
    set_nextStartTimeRef (double (nextStartTimeRef (refs c) + duration buffer)) c in
  set_sourcesRef ({[src]} ∪ sourcesRef (refs c)) c.

(** [source.onended]. *)
Definition sourceEnded (src : nat) (c : VoiceInterface) : VoiceInterface :=
  if (src <? length (sources (page c)))%nat
  then set_sourcesRef (sourcesRef (refs c) ∖ {[src]}) c
  else c.

(** The transcription half of [handleServerMessage]. *)
Definition applyTranscription (message : LiveServerMessage) (c : VoiceInterface)
  : VoiceInterface :=
  let prev := transcript (state c) in
  let kept (who : Speaker) : string :=
    match prev with
    | Some p => if decide (source p = who) then text p else ""
    | None => ""
    end in
  match truthy (outputTranscription message) with
  | Some outputText =>
      setTranscript (Some {| source := ai; text := kept ai +:+ outputText |}) c
  | None =>
      match truthy (inputTranscription message) with
      | Some inputText =>
          setTranscript (Some {| source := user; text := kept user +:+ inputText |}) c
      | None => c
      end
  end.

(** The audio half of [handleServerMessage] up to the [await]: the
    payload of the first part, when there is one, through
    [base64ToUint8Array] and [decodeAudioData]. *)
Definition inlineAudio (message : LiveServerMessage) : option (result AudioBuffer) :=
  match truthy (inlineData message) with
  | Some base64Audio =>
      Some match base64ToUint8Array base64Audio with
           | Ok audioData => decodeAudioData audioData
           | Throw e => Throw e
           end
  | None => None
  end.

(** [handleServerMessage].  The function is [async] and its caller
    neither awaits nor catches it: an exception thrown inside rejects a
    promise nobody handles, which is recorded in [uncaught]; the
    statements after the throwing one do not run.  The continuation
    after [await decodeAudioData] runs before any other callback, so the
    whole body is one step. *)
Definition handleServerMessage (message : LiveServerMessage) (ctx : nat) (now : Q)
    (c : VoiceInterface) : VoiceInterface :=
  match inlineAudio message with
  | Some (Throw e) => set_uncaught (uncaught (page c) ++ [e]) c
  | Some (Ok audioBuffer) =>
      applyTranscription message (playAudio audioBuffer ctx now c)
  | None => applyTranscription message c
  end.

(** [data.reduce((a, b) => a + b, 0) / data.length]: the mean of a
    [Uint8Array], [NaN] for the empty one. *)
Definition mean (d : Uint8Array) : number :=
  Num.div (Fin (inject_Z (fold_left (fun a b => a + Z_of_byte b) d 0)))
          (Fin (inject_Z (Z.of_nat (length d)))).

(** The state that [renderVisualizer] derives from the two energies. *)
Definition activity (inEnergy outEnergy : number) : VoiceState :=
  if Num.gt outEnergy (Fin 10) then speaking
  else if Num.gt inEnergy (Fin 10) then listening
  else idle.

(** [renderVisualizer].  [inBins] and [outBins] are what
    [getByteFrequencyData] of the two analysers yields at the call; an
    analyser ref that is still null gives the empty array.  The canvas
    exists while the component renders its tree, that is while [active]
    holds.  Of the drawing, the choice of data set and the energy of the
    glow are kept. *)
Definition renderVisualizer (inBins outBins : Uint8Array) (c : VoiceInterface)
  : VoiceInterface :=
  if negb (active (props c)) then c
  else
    let inData :=
      match inputAnalyserRef (refs c) with Some _ => inBins | None => [] end in
    let outData :=
      match outputAnalyserRef (refs c) with Some _ => outBins | None => [] end in
    let inEnergy := mean inData in
    let outEnergy := mean outData in
    let c := set_voiceState (activity inEnergy outEnergy) c in
    let dominant := Num.gt outEnergy (Fin 5) in
    let c :=
      set_canvas
        (Some {| isOutputDominant := dominant;
                 drawn := if dominant then outData else inData;
                 glowEnergy := if dominant then outEnergy else inEnergy |}) c in
    let id := S (frameCount (page c)) in
    let c := set_frameCount id (set_frames (frames (page c) ++ [id]) c) in
    set_animationFrameRef id c.

(** [startSession] up to [await getUserMedia]. *)
Definition startSession (c : VoiceInterface) : VoiceInterface :=
  let c := set_status connecting c in
  let ctx := length (contexts (page c)) in
  let c := set_contexts (contexts (page c) ++ [false]) c in
  let c := set_audioContextRef (Some ctx) c in
  let c := set_outputAnalyserRef (Some ctx) c in
  set_pending
    (pending (page c) ++
       [{| ps_ctx := ctx; ps_isMuted := isMuted (state c); ps_mode := mode (props c) |}]) c.

(** [startSession] after the [await], the part under "Input Setup":
    the stream is kept, analyser and capture node are created and wired.
    The node's handler closes over the [isMuted] of the suspended call
    [p]. *)
Definition inputSetup (p : PendingStart) (c : VoiceInterface) : VoiceInterface :=
  let stream := length (streams (page c)) in
  let c := set_streams (streams (page c) ++ [false]) c in
  let c := set_streamRef (Some stream) c in
  let c := set_inputAnalyserRef (Some stream) c in
  let node := length (processors (page c)) in
  let c :=
    set_processors
      (processors (page c) ++
         [{| sp_connected := true; sp_isMuted := ps_isMuted p |}]) c in
  set_inputNodeRef (Some node) c.

(** [startSession], the part under "Connect to Gemini Live":
    [connectLiveSession] with callbacks that hold the [ctx] of the call,
    and the mode of its closure. *)
Definition connectSession (p : PendingStart) (c : VoiceInterface) : VoiceInterface :=
  let session := length (sessions (page c)) in
  let c :=
    set_sessions
      (sessions (page c) ++
         [{| readyState := Connecting; cb_ctx := ps_ctx p;
             systemMode := ps_mode p; sent := [] |}]) c in
  set_sessionRef (Some session) c.

(** [startSession] from the point where [getUserMedia] settles, for the
    suspended call [p]; a refusal lands in the [catch]. *)
Definition resumeStart (p : PendingStart) (granted : bool) (inBins outBins : Uint8Array)
    (c : VoiceInterface) : VoiceInterface :=
  if granted
  then connectSession p (renderVisualizer inBins outBins (inputSetup p c))
  else set_status error (log FailedToStartVoiceSession c).

(** [scriptProcessor.onaudioprocess] of node [node], for one frame. *)
Definition onaudioprocess (node : nat) (inputData : Float32Array) (c : VoiceInterface)
  : VoiceInterface :=
  match processors (page c) !! node with
  | Some p =>
      if negb (sp_connected p) then c
      else if sp_isMuted p then c
      else
        let pcmBlob := createPcmBlob inputData in
        match sessionRef (refs c) with
        | Some k =>
            set_sessions
              (alter (fun s => {| readyState := readyState s; cb_ctx := cb_ctx s;
                                  systemMode := systemMode s;
                                  sent := sent s ++ [pcmBlob] |})
                 k (sessions (page c))) c
        | None => c
        end
  | None => c
  end.

Definition set_readyState (r : ReadyState) (k : nat) (c : VoiceInterface) : VoiceInterface :=
  set_sessions
    (alter (fun s => {| readyState := r; cb_ctx := cb_ctx s;
                        systemMode := systemMode s; sent := sent s |})
       k (sessions (page c))) c.

(** The effect on [[active, mode]]: when a render changes one of the
    two, the cleanup of the previous run ([stopSession]) is called, then
    the effect body. *)
Definition render (a : bool) (m : CollaborationMode) (c : VoiceInterface) : VoiceInterface :=
  if decide (a = active (props c) ∧ m = mode (props c)) then c
  else
    let rendered := with_props (fun _ => {| active := a; mode := m |}) (stopSession c) in
    if a then startSession rendered else stopSession rendered.

(** ** Events *)

Inductive event : Type :=
| VoiceStart (m : CollaborationMode)
| CloseClick
| MuteClick
| MicSettled (i : nat) (granted : bool) (inBins outBins : Uint8Array)
| AudioProcess (node : nat) (inputData : Float32Array)
| SessionOpened (k : nat)
| SessionMessage (k : nat) (message : LiveServerMessage) (now : Q)
| SessionClosed (k : nat)
| SessionErrored (k : nat)
| SourceEnded (src : nat)
| AnimationFrame (id : nat) (inBins outBins : Uint8Array)
| TranscriptTimeout.

(** One event, handled to completion.
    - [VoiceStart], [CloseClick]: [App] sets [voiceMode] and
      [isVoiceActive], the component is rendered with the new props.
    - [MuteClick]: the button exists while [active].
    - [MicSettled i]: [getUserMedia] settles for the [i]-th suspended
      [startSession].
    - [Session*]: the callbacks given to [connectLiveSession] for session
      [k]; messages arrive on an open session.
    - [AnimationFrame id]: the browser runs the pending request [id]. *)
Definition step (c : VoiceInterface) (e : event) : VoiceInterface :=
  match e with
  | VoiceStart m => render true m c
  | CloseClick => render false (mode (props c)) c
  | MuteClick =>
      if active (props c) then set_isMuted (negb (isMuted (state c))) c else c
  | MicSettled i granted inBins outBins =>
      match pending (page c) !! i with
      | Some p =>
          resumeStart p granted inBins outBins
            (set_pending (delete i (pending (page c))) c)
      | None => c
      end
  | AudioProcess node inputData => onaudioprocess node inputData c
  | SessionOpened k =>
      match sessions (page c) !! k with
      | Some s =>
          match readyState s with
          | Connecting =>
              log LiveSessionConnected (set_status connected (set_readyState Open k c))
          | _ => c
          end
      | None => c
      end
  | SessionMessage k message now =>
      match sessions (page c) !! k with
      | Some s =>
          match readyState s with
          | Open => handleServerMessage message (cb_ctx s) now c
          | _ => c
          end
      | None => c
      end
  | SessionClosed k =>
      match sessions (page c) !! k with
      | Some s =>
          match readyState s with
          | Closed => c
          | _ => log LiveSessionClosed (set_readyState Closed k c)
          end
      | None => c
      end
  | SessionErrored k =>
      match sessions (page c) !! k with
      | Some s => set_status error (log LiveSessionError c)
      | None => c
      end
  | SourceEnded src => sourceEnded src c
  | AnimationFrame id inBins outBins =>
      if decide (id ∈ frames (page c))
      then renderVisualizer inBins outBins
             (set_frames (filter (fun i => i ≠ id) (frames (page c))) c)
      else c
  | TranscriptTimeout => transcriptTimeout c
  end.

Definition run (c : VoiceInterface) (es : list event) : VoiceInterface :=
  fold_left step es c.

(** The sessions whose connection is not closed. *)
Definition openSessions (c : VoiceInterface) : list LiveSession :=
  filter (fun s => readyState s ≠ Closed) (sessions (page c)).

(** ** Playback traces *)




(** The most that rounding to a double moves [x]: half a unit in the
    last place, at most [|x| * 2^-53] and, below the normal range,
    [2^-1075]. *)
Definition rounding (x : Q) : Q :=
  (Qabs x * Double.pow2 (-53) + Double.pow2 (-1075))%Q.



(** The playback scheduler's own state: the cursor, the set of active
    sources and the sources started so far. *)
Definition playback (c : VoiceInterface) : Q * gset nat * list SourceNode :=
  (nextStartTimeRef (refs c), sourcesRef (refs c), sources (page c)).

(** A delta applied to a transcript, in the words of the claim: append
    when the transcript has the delta's source, start over otherwise. *)
Definition accumulate (who : Speaker) (delta : string) (prev : option Transcript)
  : Transcript :=
  {| source := who;
     text := match prev with
             | Some p => if decide (source p = who) then text p +:+ delta else delta
             | None => delta
             end |}.

(** ** Scenarios *)

(** A server message carrying two samples of silence, with and without
    transcription deltas. *)
Definition silence : LiveServerMessage :=
  {| inlineData := Some "AAAAAA=="%string;
     outputTranscription := None;
     inputTranscription := None |}.

Definition both_deltas : LiveServerMessage :=
  {| inlineData := Some "AAAAAA=="%string;
     outputTranscription := Some "Hello"%string;
     inputTranscription := Some "hi"%string |}.

(** A payload of three bytes: valid text, but not a whole number of
    16-bit samples. *)
Definition odd_payload : LiveServerMessage :=
  {| inlineData := Some "AAAA"%string;
     outputTranscription := Some "Hello"%string;
     inputTranscription := None |}.

(** The same payload with both deltas. *)
Definition both_deltas_odd_payload : LiveServerMessage :=
  {| inlineData := Some "AAAA"%string;
     outputTranscription := Some "Hello"%string;
     inputTranscription := Some "hi"%string |}.

(** A payload of one space: valid text for no byte at all. *)
Definition blank_payload : LiveServerMessage :=
  {| inlineData := Some " "%string;
     outputTranscription := Some "Hello"%string;
     inputTranscription := None |}.

(** A payload that is not base64 text. *)
Definition garbled_payload : LiveServerMessage :=
  {| inlineData := Some "!"%string;
     outputTranscription := Some "Hello"%string;
     inputTranscription := None |}.

(** The user starts a voice session, grants the microphone, and the
    transport opens. *)
Definition opening : list event :=
  [VoiceStart Collaborative; MicSettled 0 true [] []; SessionOpened 0].

Definition connected_session : VoiceInterface := run mount opening.

(** The same session after one chunk of audio arrived at clock 1/2. *)
Definition talking_session : VoiceInterface :=
  step connected_session (SessionMessage 0 silence (1 # 2)).

(** A session started and then muted while the microphone prompt is
    still open. *)
Definition muted_session : VoiceInterface :=
  run mount [VoiceStart Collaborative; MuteClick].

(** The microphone is granted, the transport opens and fails, the user
    closes the overlay, starts again, and is refused the microphone. *)
Definition error_then_restart : list event :=
  [MicSettled 0 true [] []; SessionOpened 0; SessionErrored 0; CloseClick;
   VoiceStart Collaborative; MicSettled 0 false [] []; CloseClick].

(** ** Further definitions *)

(** What a 16-bit sample becomes when the decoded float is encoded
    again: positive samples are scaled by 32767/32768 and truncated. *)
Definition reencoded (v : Z) : Z := if 0 <? v then v - 1 else v.

(** The bars of [renderVisualizer]: [barCount] of them, bar [i] reading
    [data[i * step]] with [step = Math.floor(data.length / barCount)];
    an index past the end reads [undefined], here [None]. *)
Definition barCount : nat := 64.

Definition barStep (data : Uint8Array) : nat := length data / barCount.

Definition barValue (data : Uint8Array) (i : nat) : option byte :=
  data !! (i * barStep data)%nat.

Definition bars (data : Uint8Array) : list (option byte) :=
  map (barValue data) (seq 0 barCount).

(** [percent = value / 255], [NaN] for an undefined value. *)
Definition barPercent (value : option byte) : number :=
  match value with
  | Some b => Num.div (Fin (inject_Z (Z_of_byte b))) (Fin 255)
  | None => NaN
  end.

(** When a started source stops sounding, as the scheduler computes
    it: the double that the addition gives for start plus duration. *)
Definition source_end (s : SourceNode) : Q :=
  double (src_start s + duration (src_buffer s)).

(** No source starts before the end computed for the one started just
    before it; measured exactly, it starts before that end by no more
    than the rounding of the end. *)
Definition never_overlap (l : list SourceNode) : Prop :=
  forall i a b, l !! i = Some a -> l !! S i = Some b ->
    (source_end a <= src_start b
     /\ src_start a + duration (src_buffer a)
          - rounding (src_start a + duration (src_buffer a)) <= src_start b)%Q.

(** The cursor is not before the end of the source started last. *)
Definition cursor_covers (c : VoiceInterface) : Prop :=
  forall s, last (sources (page c)) = Some s -> (source_end s <= nextStartTimeRef (refs c))%Q.

(** The transcript on screen and the timer that will clear it. *)
Definition subtitle (c : VoiceInterface) : option Transcript * bool :=
  (transcript (state c), transcriptTimeoutRef (refs c)).

(** The activity indicator is idle whenever the overlay is closed. *)
Definition idle_when_closed (c : VoiceInterface) : Prop :=
  active (props c) = true \/ voiceState (state c) = idle.

(** The facts kept about the log of sources, on the playback state: no
    overlap, the cursor past the last source, and an active set of
    started sources only. *)
Definition log_ok (p : Q * gset nat * list SourceNode) : Prop :=
  never_overlap p.2
  /\ (forall s, last p.2 = Some s -> (source_end s <= p.1.1)%Q)
  /\ p.1.2 ⊆ set_seq 0 (length p.2).

(** A displayed transcript has its clearing timer pending. *)
Definition subtitle_ok (p : option Transcript * bool) : Prop :=
  p.1 = None \/ p.2 = true.

(** What the refs name exists and has not been released. *)
Definition refs_live (c : VoiceInterface) : Prop :=
  match audioContextRef (refs c) with
  | Some a => contexts (page c) !! a = Some false
  | None => True
  end
  /\ match streamRef (refs c) with
     | Some s => streams (page c) !! s = Some false
     | None => True
     end
  /\ match inputNodeRef (refs c) with
     | Some n => (sp_connected <$> processors (page c) !! n) = Some true
     | None => True
     end
  /\ match sessionRef (refs c) with
     | Some k => is_Some (sessions (page c) !! k)
     | None => True
     end.

(** The four refs to objects of the page, with the tables they index. *)
Definition resources (c : VoiceInterface) :=
  (audioContextRef (refs c), streamRef (refs c), inputNodeRef (refs c),
   sessionRef (refs c),
   (contexts (page c), streams (page c), processors (page c), sessions (page c))).

(** ** Text requests: [InputArea], [App] and [runMultiAgentSimulation]

    The text typed into the input area is a sequence of UTF-16 code
    units.  File types and base64 data are ASCII, and of the prompt the
    service and [App] read the length and a prefix only: these are
    strings of code units below 256. *)

Definition CodeUnits := list N.

(** The white space and line terminators that [String.prototype.trim]
    removes: TAB, LF, VT, FF, CR, SP, NBSP, U+1680, U+2000 to U+200A,
    U+2028, U+2029, U+202F, U+205F, U+3000 and U+FEFF. *)
Definition isWhiteSpace (u : N) : bool :=
  ((9 <=? u) && (u <=? 13) || (u =? 32) || (u =? 160) || (u =? 5760)
   || (8192 <=? u) && (u <=? 8202) || (u =? 8232) || (u =? 8233)
   || (u =? 8239) || (u =? 8287) || (u =? 12288) || (u =? 65279))%N.

Fixpoint trimStart (s : CodeUnits) : CodeUnits :=
  match s with
  | u :: s' => if isWhiteSpace u then trimStart s' else s
  | [] => []
  end.

Definition trimEnd (s : CodeUnits) : CodeUnits := rev (trimStart (rev s)).

Definition trim (s : CodeUnits) : CodeUnits := trimEnd (trimStart s).

(** [String.prototype.toLowerCase] on one code unit: A-Z and the
    capital letters of U+00C0-U+00DE (not the multiplication sign). *)
Definition lowerUnit (a : ascii) : ascii :=
  let n := N_of_ascii a in
  if ((65 <=? n) && (n <=? 90) || (192 <=? n) && (n <=? 222) && negb (n =? 215))%N
  then ascii_of_N (n + 32)
  else a.

Fixpoint toLowerCase (s : string) : string :=
  match s with
  | String a s' => String (lowerUnit a) (toLowerCase s')
  | EmptyString => EmptyString
  end.

(** A [File] as the code reads it: its [type]. *)
Record File : Type := { file_type : string }.

(** [handleSubmit] of [InputArea]: the call of [onGenerate], if any. *)
Definition handleSubmit (text : CodeUnits) (file : option File)
  : option (CodeUnits * option File) :=
  match trim text, file with
  | [], None => None
  | _, _ => Some (text, file)
  end.

(** The parts of a request. *)
Inductive Part : Type :=
| TextPart (t : string)
| InlineDataPart (data mimeType : string).

(** [fileBase64 && mimeType]. *)
Definition attachment (fileBase64 mimeType : option string) : option (string * string) :=
  match truthy fileBase64, truthy mimeType with
  | Some d, Some m => Some (d, m)
  | _, _ => None
  end.

(** [userContent] of [runMultiAgentSimulation]: the prompt, or one made
    up for a file sent without text. *)
Definition userContent (prompt : string) (fileBase64 mimeType : option string) : string :=
  match attachment fileBase64 mimeType, prompt with
  | Some (_, m), EmptyString =>
      if String.prefix "audio/" m
      then "Analyze this audio input. Provide a transcription and discuss the tone and content."
      else if String.prefix "video/" m
      then "Analyze this video input. Provide a caption and discuss the visual and auditory details."
      else "Analyze this visual input."
  | _, _ => prompt
  end.

Definition quote : string := String (ascii_of_N 34) EmptyString.

Definition newline : string := String (ascii_of_N 10) EmptyString.

(** [contextPrompt]; [previousMemory] is [None] for a falsy value and
    otherwise holds what [JSON.stringify] gives for it. *)
Definition contextPrompt (prompt : string) (fileBase64 mimeType previousMemory : option string)
  : string :=
  "User Input: " +:+ quote +:+ userContent prompt fileBase64 mimeType +:+ quote +:+
  match previousMemory with
  | Some json => newline +:+ newline +:+ "PREVIOUS CONTEXT (Existing Memory): " +:+ json
  | None => EmptyString
  end.

(** [parts] as [runMultiAgentSimulation] hands them to [generateContent]. *)
Definition requestParts (prompt : string) (fileBase64 mimeType previousMemory : option string)
  : list Part :=
  TextPart (contextPrompt prompt fileBase64 mimeType previousMemory) ::
  match attachment fileBase64 mimeType with
  | Some (d, m) => [InlineDataPart d m]
  | None => []
  end.

(** [handleGenerate] of [App] up to the call of the service; [file] comes
    with the string that [fileToBase64] resolves to. *)
Definition imageBase64 (file : option (File * string)) : option string := snd <$> file.

Definition mimeType_of (file : option (File * string)) : option string :=
  (fun f => toLowerCase (file_type (fst f))) <$> file.

Definition generateRequest (promptText : string) (file : option (File * string))
    (previousMemory : option string) : list Part :=
  requestParts promptText (imageBase64 file) (mimeType_of file) previousMemory.

(** [name] and [originalImage] of the new creation. *)
Definition creationName (promptText : string) : string :=
  if (30 <? String.length promptText)%nat
  then substring 0 30 promptText +:+ "..."
  else match promptText with
       | EmptyString => "Visual Analysis"
       | _ => promptText
       end.

Definition originalImage (file : option (File * string)) : option string :=
  match attachment (imageBase64 file) (mimeType_of file) with
  | Some (d, m) => Some ("data:" +:+ m +:+ ";base64," +:+ d)
  | None => None
  end.

(** The text holds a character that is not white space. *)
Fixpoint hasVisible (s : CodeUnits) : bool :=
  match s with
  | u :: s' => negb (isWhiteSpace u) || hasVisible s'
  | [] => false
  end.

(** The file of a submission with what [fileToBase64] resolves to. *)
Definition withBase64 (file : option File) (base64 : string) : option (File * string) :=
  (fun f => (f, base64)) <$> file.

(** * Properties *)

(** ** Doubles *)

Section DoubleFacts.
Import Double.
#[local] Open Scope Q_scope.

Lemma Zpow2_pos (k : Z) : (0 <= k)%Z -> 0 < inject_Z (2 ^ k).
Proof.
  intros H. change 0 with (inject_Z 0). rewrite <- Zlt_Qlt.
  apply Z.pow_pos_nonneg; lia.
Qed.

Lemma pow2_pos (e : Z) : 0 < pow2 e.
Proof.
  unfold pow2. destruct (0 <=? e)%Z eqn:E.
  - apply Zpow2_pos. lia.
  - apply Qinv_lt_0_compat, Zpow2_pos. lia.
Qed.

Lemma pow2_nonneg (e : Z) : (0 <= e)%Z -> pow2 e = inject_Z (2 ^ e).
Proof. intros H. unfold pow2. destruct (0 <=? e)%Z eqn:E; [reflexivity | lia]. Qed.

Lemma pow2_plus (e k : Z) : (0 <= k)%Z -> pow2 (e + k) == inject_Z (2 ^ k) * pow2 e.
Proof.
  intros Hk. unfold pow2.
  destruct (0 <=? e)%Z eqn:E, (0 <=? e + k)%Z eqn:E'; try lia.
  - rewrite Z.pow_add_r by lia. rewrite inject_Z_mult. ring.
  - assert (H : (2 ^ k = 2 ^ (e + k) * 2 ^ (- e))%Z)
      by (rewrite <- Z.pow_add_r by lia; f_equal; lia).
    rewrite H, inject_Z_mult.
    pose proof (Zpow2_pos (- e) ltac:(lia)). field. lra.
  - assert (H : (2 ^ (- e) = 2 ^ k * 2 ^ (- (e + k)))%Z)
      by (rewrite <- Z.pow_add_r by lia; f_equal; lia).
    rewrite H, inject_Z_mult.
    pose proof (Zpow2_pos k ltac:(lia)). pose proof (Zpow2_pos (- (e + k)) ltac:(lia)).
    field. split; lra.
Qed.

Lemma pow2_le (e e' : Z) : (e <= e')%Z -> pow2 e <= pow2 e'.
Proof.
  intros H. replace e' with (e + (e' - e))%Z by lia.
  rewrite pow2_plus by lia.
  assert (1 <= inject_Z (2 ^ (e' - e))).
  { change 1 with (inject_Z 1). rewrite <- Zle_Qle.
    pose proof (Z.pow_pos_nonneg 2 (e' - e)). lia. }
  pose proof (pow2_pos e). nra.
Qed.


Lemma pow2_sub (u v : Z) :
  (0 <= u)%Z -> (0 <= v)%Z -> pow2 (u - v) * inject_Z (2 ^ v) == inject_Z (2 ^ u).
Proof.
  intros Hu Hv. rewrite <- (pow2_nonneg u Hu).
  replace u with ((u - v) + v)%Z at 2 by lia.
  rewrite pow2_plus by lia. ring.
Qed.

Lemma Qmake_div (n : Z) (d : positive) : n # d == inject_Z n / inject_Z (Zpos d).
Proof. apply Qmake_Qdiv. Qed.

Lemma ilog2_spec (a : Q) : 0 < a -> pow2 (ilog2 a) <= a < pow2 (ilog2 a + 1).
Proof.
  intros Ha. destruct a as [n d].
  assert (Hn : (0 < n)%Z) by (unfold Qlt in Ha; cbn in Ha; lia).
  unfold ilog2. cbn [Qnum Qden].
  set (ln := Z.log2 n). set (ld := Z.log2 (Zpos d)).
  assert (Hln : (0 <= ln)%Z) by apply Z.log2_nonneg.
  assert (Hld : (0 <= ld)%Z) by apply Z.log2_nonneg.
  destruct (Z.log2_spec n Hn) as [Hn1 Hn2]. fold ln in Hn1, Hn2.
  destruct (Z.log2_spec (Zpos d) ltac:(lia)) as [Hd1 Hd2]. fold ld in Hd1, Hd2.
  assert (Hup : n # d < pow2 (ln - ld + 1)).
  { pose proof (pow2_sub (ln + 1) ld ltac:(lia) Hld) as E.
    replace (ln + 1 - ld)%Z with (ln - ld + 1)%Z in E by lia.
    pose proof (pow2_pos (ln - ld + 1)) as Hp.
    rewrite Qmake_div. apply Qlt_shift_div_r; [reflexivity|].
    apply Qlt_le_trans with (inject_Z (2 ^ (ln + 1))).
    - rewrite <- Zlt_Qlt. exact Hn2.
    - rewrite <- E. apply Qmult_le_l; [exact Hp|]. rewrite <- Zle_Qle. exact Hd1. }
  assert (Hlo : pow2 (ln - ld - 1) < n # d).
  { pose proof (pow2_sub ln (ld + 1) Hln ltac:(lia)) as E.
    replace (ln - (ld + 1))%Z with (ln - ld - 1)%Z in E by lia.
    pose proof (pow2_pos (ln - ld - 1)) as Hp.
    rewrite Qmake_div. apply Qlt_shift_div_l; [reflexivity|].
    apply Qlt_le_trans with (inject_Z (2 ^ ln)).
    - rewrite <- E. apply Qmult_lt_l; [exact Hp|]. rewrite <- Zlt_Qlt. exact Hd2.
    - rewrite <- Zle_Qle. exact Hn1. }
  destruct (Qle_bool (pow2 (ln - ld)) (n # d)) eqn:E.
  - apply Qle_bool_iff in E. split; assumption.
  - replace (ln - ld - 1 + 1)%Z with (ln - ld)%Z by lia. split.
    + apply Qlt_le_weak. exact Hlo.
    + apply Qnot_le_lt. intros H. apply Qle_bool_iff in H. congruence.
Qed.

Lemma Qabs_le_both (u w : Q) : - w <= u -> u <= w -> Qabs u <= w.
Proof. intros. apply Qabs_Qle_condition. split; assumption. Qed.

Lemma Qabs_lower (v : Q) : v <= Qabs v /\ - v <= Qabs v.
Proof.
  split; [apply Qle_Qabs|]. rewrite <- (Qabs_opp v). apply Qle_Qabs.
Qed.

Lemma rne_nearest (t : Q) (k : Z) :
  Qabs (t - inject_Z (rne t)) <= Qabs (t - inject_Z k).
Proof.
  pose proof (Qfloor_le t) as Hf1. pose proof (Qlt_floor t) as Hf2.
  rewrite inject_Z_plus in Hf2. change (inject_Z 1) with 1 in Hf2.
  destruct (Qabs_lower (t - inject_Z k)) as [Hv1 Hv2].
  assert (Hk : inject_Z k <= inject_Z (Qfloor t) \/ inject_Z (Qfloor t) + 1 <= inject_Z k).
  { destruct (Z.le_gt_cases k (Qfloor t)) as [H|H].
    - left. rewrite <- Zle_Qle. exact H.
    - right. change 1 with (inject_Z 1). rewrite <- inject_Z_plus, <- Zle_Qle. lia. }
  unfold rne.
  destruct (t - inject_Z (Qfloor t) ?= 1 # 2) eqn:E.
  - apply Qeq_alt in E.
    destruct (Z.even (Qfloor t)).
    + apply Qabs_le_both; destruct Hk; lra.
    + rewrite inject_Z_plus. change (inject_Z 1) with 1.
      apply Qabs_le_both; destruct Hk; lra.
  - apply Qlt_alt in E. apply Qabs_le_both; destruct Hk; lra.
  - apply Qgt_alt in E. rewrite inject_Z_plus. change (inject_Z 1) with 1.
    apply Qabs_le_both; destruct Hk; lra.
Qed.


Lemma exponent_bounds (a : Q) :
  0 < a ->
  (-1074 <= exponent a)%Z
  /\ a / pow2 (exponent a) < inject_Z (2 ^ 53)
  /\ ((-1074 < exponent a)%Z -> inject_Z (2 ^ 52) <= a / pow2 (exponent a)).
Proof.
  intros Ha. destruct (ilog2_spec a Ha) as [Hlo Hup].
  pose proof (pow2_pos (exponent a)) as Hp.
  split; [unfold exponent; lia|]. split.
  - apply Qlt_shift_div_r; [exact Hp|].
    rewrite <- pow2_plus by lia.
    apply Qlt_le_trans with (1 := Hup). apply pow2_le. unfold exponent. lia.
  - intros He. apply Qle_shift_div_l; [exact Hp|].
    rewrite <- pow2_plus by lia.
    apply Qle_trans with (2 := Hlo). apply pow2_le. unfold exponent in *. lia.
Qed.

Lemma rne_bounds (t : Q) (hi : Z) :
  0 <= t -> t <= inject_Z hi -> (0 <= rne t <= hi)%Z.
Proof.
  intros H0 Hhi.
  pose proof (rne_nearest t 0) as N0. pose proof (rne_nearest t hi) as Nh.
  change (inject_Z 0) with 0 in N0.
  rewrite (Qabs_pos (t - 0)) in N0 by lra.
  rewrite (Qabs_neg (t - inject_Z hi)) in Nh by lra.
  destruct (Qabs_lower (t - inject_Z (rne t))) as [L1 L2].
  split.
  - destruct (Z.le_gt_cases 0 (rne t)) as [H|H]; [exact H|]. exfalso.
    assert (inject_Z (rne t) <= inject_Z (-1)) by (rewrite <- Zle_Qle; lia).
    change (inject_Z (-1)) with (-1) in *. lra.
  - destruct (Z.le_gt_cases (rne t) hi) as [H|H]; [exact H|]. exfalso.
    assert (inject_Z (hi + 1) <= inject_Z (rne t)) by (rewrite <- Zle_Qle; lia).
    rewrite inject_Z_plus in *. change (inject_Z 1) with 1 in *. lra.
Qed.

Lemma nearest_representable (a : Q) : 0 < a -> representable (nearest a) /\ 0 <= nearest a.
Proof.
  intros Ha. destruct (exponent_bounds a Ha) as (He & Hup & _).
  pose proof (pow2_pos (exponent a)) as Hp.
  assert (Ht : 0 <= a / pow2 (exponent a)).
  { apply Qle_shift_div_l; [exact Hp | lra]. }
  destruct (rne_bounds _ (2 ^ 53) Ht (Qlt_le_weak _ _ Hup)) as [M0 M1].
  split.
  - exists (rne (a / pow2 (exponent a))), (exponent a).
    split; [exact He|]. split; [lia | reflexivity].
  - unfold nearest. cbv zeta. apply Qmult_le_0_compat; [|lra].
    change 0 with (inject_Z 0). rewrite <- Zle_Qle. exact M0.
Qed.

Lemma Qabs_scale (p u : Q) : 0 < p -> Qabs (u * p) == Qabs u * p.
Proof. intros H. rewrite Qabs_Qmult, (Qabs_pos p) by lra. reflexivity. Qed.

Lemma nearest_closest (a f : Q) :
  0 < a -> representable f -> Qabs (a - nearest a) <= Qabs (a - f).
Proof.
  intros Ha (n & e' & He' & Hn & Hf).
  destruct (exponent_bounds a Ha) as (He & Hup & Hlo).
  set (e := exponent a) in *. pose proof (pow2_pos e) as Hp.
  set (t := a / pow2 e) in *.
  assert (Hat : a == t * pow2 e) by (unfold t; field; lra).
  assert (Hm : forall k : Z,
             Qabs (a - nearest a) <= Qabs (a - inject_Z k * pow2 e)).
  { intros k. unfold nearest. cbv zeta. fold e. fold t.
    assert (E1 : a - inject_Z (rne t) * pow2 e == (t - inject_Z (rne t)) * pow2 e)
      by (rewrite Hat at 1; ring).
    assert (E2 : a - inject_Z k * pow2 e == (t - inject_Z k) * pow2 e)
      by (rewrite Hat at 1; ring).
    rewrite E1, E2, !Qabs_scale by exact Hp.
    apply Qmult_le_compat_r; [apply rne_nearest | lra]. }
  destruct (Z.le_gt_cases e e') as [Hee|Hee].
  - (* f is a multiple of the spacing *)
    specialize (Hm (n * 2 ^ (e' - e))%Z).
    assert (E : f == inject_Z (n * 2 ^ (e' - e)) * pow2 e).
    { rewrite Hf. replace e' with (e + (e' - e))%Z at 1 by lia.
      rewrite pow2_plus by lia. rewrite inject_Z_mult. ring. }
    rewrite E. exact Hm.
  - (* f lies below the binade of a *)
    specialize (Hlo ltac:(lia)). specialize (Hm (2 ^ 52)%Z).
    apply Qle_trans with (1 := Hm).
    assert (Hfle : f <= inject_Z (2 ^ 52) * pow2 e).
    { rewrite Hf.
      assert (Hpe : pow2 e == inject_Z (2 ^ (e - e')) * pow2 e').
      { replace e with (e' + (e - e'))%Z at 1 by lia. apply pow2_plus. lia. }
      rewrite Hpe. pose proof (pow2_pos e') as Hp'.
      assert (H2 : inject_Z 2 <= inject_Z (2 ^ (e - e'))).
      { rewrite <- Zle_Qle. change 2%Z with (2 ^ 1)%Z at 1.
        apply Z.pow_le_mono_r; lia. }
      assert (Hn' : inject_Z n <= inject_Z (2 ^ 53)) by (rewrite <- Zle_Qle; lia).
      change (inject_Z 2) with 2 in H2.
      change (inject_Z (2 ^ 53)) with (2 * inject_Z (2 ^ 52)) in Hn'.
      pose proof (Zpow2_pos 52 ltac:(lia)) as H52.
      apply Qle_trans with (2 * inject_Z (2 ^ 52) * pow2 e').
      - apply Qmult_le_compat_r; lra.
      - assert (0 <= (inject_Z (2 ^ (e - e')) - 2) * (inject_Z (2 ^ 52) * pow2 e')).
        { apply Qmult_le_0_compat; [lra|]. apply Qmult_le_0_compat; lra. }
        lra. }
    assert (Hge : inject_Z (2 ^ 52) * pow2 e <= a).
    { rewrite Hat. apply Qmult_le_compat_r; [exact Hlo | lra]. }
    rewrite (Qabs_pos (a - inject_Z (2 ^ 52) * pow2 e)) by lra.
    rewrite (Qabs_pos (a - f)) by lra. lra.
Qed.


Lemma representable_opp (f : Q) : representable f -> representable (- f).
Proof.
  intros (n & e & He & Hn & Hf). exists (- n)%Z, e.
  split; [exact He|]. split; [lia|]. rewrite Hf, inject_Z_opp. ring.
Qed.

Lemma representable_comp (f g : Q) : f == g -> representable f -> representable g.
Proof.
  intros E (n & e & He & Hn & Hf). exists n, e. rewrite <- E. auto.
Qed.

Lemma representable_0 : representable 0.
Proof. exists 0%Z, 0%Z. split; [lia|]. split; [cbn; lia | reflexivity]. Qed.

(** [double] by cases on the sign of its argument. *)
Lemma double_cases (x : Q) :
  (x == 0 /\ double x = 0)
  \/ (exists a, a == x /\ 0 < a /\ double x == nearest a)
  \/ (exists a, a == - x /\ 0 < a /\ double x == - nearest a).
Proof.
  unfold double. cbv zeta. pose proof (Qred_correct x) as E.
  destruct (Qred x) as [n d] eqn:R. cbn [Qnum]. destruct n as [|p|p].
  - left. split; [rewrite <- E; reflexivity | reflexivity].
  - right. left. exists (Zpos p # d). split; [exact E|]. split; [reflexivity|].
    apply Qred_correct.
  - right. right. exists (- (Zneg p # d)). split; [rewrite E; reflexivity|].
    split; [reflexivity|]. apply Qred_correct.
Qed.

Lemma double_comp (x y : Q) : x == y -> double x = double y.
Proof. intros E. unfold double. rewrite (Qred_complete x y E). reflexivity. Qed.

Lemma double_representable (x : Q) : representable (double x).
Proof.
  destruct (double_cases x) as [[_ ->] | [(a & _ & Ha & E) | (a & _ & Ha & E)]].
  - exact representable_0.
  - apply (representable_comp (nearest a)); [symmetry; exact E|].
    apply nearest_representable, Ha.
  - apply (representable_comp (- nearest a)); [symmetry; exact E|].
    apply representable_opp, nearest_representable, Ha.
Qed.

(** No double is nearer to [x] than [double x]. *)
Lemma double_closest (x f : Q) :
  representable f -> Qabs (x - double x) <= Qabs (x - f).
Proof.
  intros Hf.
  destruct (double_cases x) as [[E ->] | [(a & Ea & Ha & E) | (a & Ea & Ha & E)]].
  - rewrite E. assert (Hr : (0 - 0) == 0) by (ring); rewrite Hr; clear Hr. apply Qabs_nonneg.
  - rewrite E, <- Ea. apply nearest_closest; assumption.
  - rewrite E.
    assert (Hr : (x - - nearest a) == (- (a - nearest a))) by lra; rewrite Hr; clear Hr.
    assert (Hr : (x - f) == (- (a - - f))) by lra; rewrite Hr; clear Hr.
    rewrite !Qabs_opp. apply nearest_closest; [exact Ha|].
    apply representable_opp, Hf.
Qed.

(** A double is its own rounding. *)
Lemma double_representable_eq (f : Q) : representable f -> double f == f.
Proof.
  intros Hf. pose proof (double_closest f f Hf) as H.
  assert (Hr : (f - f) == 0) by (ring); rewrite Hr in H; clear Hr. change (Qabs 0) with 0 in H.
  destruct (Qabs_lower (f - double f)). lra.
Qed.


Lemma closer_right (x r1 r2 : Q) :
  r1 < r2 -> Qabs (x - r2) <= Qabs (x - r1) -> r1 + r2 <= 2 * x.
Proof.
  intros Hr H.
  destruct (Qlt_le_dec x r1) as [A|A].
  - rewrite (Qabs_neg (x - r2)), (Qabs_neg (x - r1)) in H by lra. lra.
  - rewrite (Qabs_pos (x - r1)) in H by lra.
    destruct (Qlt_le_dec x r2) as [B|B].
    + rewrite (Qabs_neg (x - r2)) in H by lra. lra.
    + lra.
Qed.

Lemma closer_left (y r1 r2 : Q) :
  r1 < r2 -> Qabs (y - r1) <= Qabs (y - r2) -> 2 * y <= r1 + r2.
Proof.
  intros Hr H.
  destruct (Qlt_le_dec r2 y) as [A|A].
  - rewrite (Qabs_pos (y - r2)), (Qabs_pos (y - r1)) in H by lra. lra.
  - rewrite (Qabs_neg (y - r2)) in H by lra.
    destruct (Qlt_le_dec r1 y) as [B|B].
    + rewrite (Qabs_pos (y - r1)) in H by lra. lra.
    + lra.
Qed.

(** Rounding keeps the order. *)
Lemma double_monotone (x y : Q) : x <= y -> double x <= double y.
Proof.
  intros Hxy.
  destruct (Qlt_le_dec (double y) (double x)) as [Hlt|Hle]; [|exact Hle].
  exfalso.
  pose proof (double_closest x (double y) (double_representable y)) as Hx.
  pose proof (double_closest y (double x) (double_representable x)) as Hy.
  apply (closer_right _ _ _ Hlt) in Hx. apply (closer_left _ _ _ Hlt) in Hy.
  assert (E : x == y) by lra.
  rewrite (double_comp x y E) in Hlt. lra.
Qed.





Lemma rne_half (t : Q) : Qabs (t - inject_Z (rne t)) <= 1 # 2.
Proof.
  pose proof (Qfloor_le t) as Hf1. pose proof (Qlt_floor t) as Hf2.
  pose proof (rne_nearest t (Qfloor t)) as N1.
  pose proof (rne_nearest t (Qfloor t + 1)) as N2.
  rewrite inject_Z_plus in Hf2, N2. change (inject_Z 1) with 1 in Hf2, N2.
  rewrite (Qabs_pos (t - inject_Z (Qfloor t))) in N1 by lra.
  rewrite (Qabs_neg (t - (inject_Z (Qfloor t) + 1))) in N2 by lra.
  lra.
Qed.

Lemma nearest_error (a : Q) :
  0 < a -> Qabs (a - nearest a) <= a * pow2 (-53) + pow2 (-1075).
Proof.
  intros Ha. destruct (exponent_bounds a Ha) as (He & _ & Hlo).
  set (e := exponent a) in *. pose proof (pow2_pos e) as Hp.
  set (t := a / pow2 e) in *.
  assert (Hat : a == t * pow2 e) by (unfold t; field; lra).
  assert (E1 : a - nearest a == (t - inject_Z (rne t)) * pow2 e).
  { unfold nearest. cbv zeta. fold e. fold t. rewrite Hat at 1. ring. }
  rewrite E1, Qabs_scale by exact Hp.
  pose proof (rne_half t) as Hh.
  assert (Hhalf : Qabs (t - inject_Z (rne t)) * pow2 e <= (1 # 2) * pow2 e)
    by (apply Qmult_le_compat_r; lra).
  apply Qle_trans with (1 := Hhalf).
  pose proof (pow2_pos (-53)) as P53. pose proof (pow2_pos (-1075)) as P1075.
  destruct (Z.eq_dec e (-1074)%Z) as [E|E].
  - assert (Hs : pow2 e == 2 * pow2 (-1075)).
    { rewrite E. change (-1074)%Z with (-1075 + 1)%Z. rewrite pow2_plus by lia.
      reflexivity. }
    assert (0 <= a * pow2 (-53)) by (apply Qmult_le_0_compat; lra).
    lra.
  - specialize (Hlo ltac:(lia)).
    assert (Hs : (1 # 2) * pow2 e <= a * pow2 (-53)).
    { rewrite Hat.
      assert (H1 : inject_Z (2 ^ 52) * pow2 (-53) == 1 # 2) by reflexivity.
      assert (H2 : (1 # 2) * pow2 e == inject_Z (2 ^ 52) * pow2 (-53) * pow2 e)
        by (rewrite H1; reflexivity).
      rewrite H2.
      assert (0 <= (t - inject_Z (2 ^ 52)) * (pow2 (-53) * pow2 e)).
      { apply Qmult_le_0_compat; [lra|]. apply Qmult_le_0_compat; lra. }
      lra. }
    lra.
Qed.

(** The rounding error: half a unit in the last place. *)
Lemma double_error (x : Q) :
  Qabs (x - double x) <= Qabs x * pow2 (-53) + pow2 (-1075).
Proof.
  destruct (double_cases x) as [[E ->] | [(a & Ea & Ha & E) | (a & Ea & Ha & E)]].
  - pose proof (pow2_pos (-1075)). pose proof (pow2_pos (-53)).
    assert (Hr : x - 0 == 0) by lra. rewrite Hr, E. change (Qabs 0) with 0.
    lra.
  - rewrite E, <- Ea, (Qabs_pos a) by lra. apply nearest_error, Ha.
  - rewrite E.
    assert (Hr : x - - nearest a == - (a - nearest a)) by lra. rewrite Hr. clear Hr.
    assert (Hx : x == - a) by lra. rewrite Hx, !Qabs_opp, (Qabs_pos a) by lra.
    apply nearest_error, Ha.
Qed.

End DoubleFacts.

Lemma double_fixed_iff (x : Q) : (double x == x)%Q <-> representable x.
Proof.
  split; intros H.
  - apply (representable_comp (double x)); [exact H | apply double_representable].
  - apply double_representable_eq, H.
Qed.

(** ** Sample values *)

Example double_tenth : double (1 # 10) = (3602879701896397 # 36028797018963968)%Q.
Proof. vm_compute. reflexivity. Qed.

Example double_sum :
  double (2 + double (1 # 12000)) = (2251893638677485 # 1125899906842624)%Q.
Proof. vm_compute. reflexivity. Qed.

Example btoa_Man : Base64.btoa "Man" = "TWFu"%string.
Proof. reflexivity. Qed.

Example btoa_padding :
  Base64.btoa "Ma" = "TWE="%string /\ Base64.btoa "M" = "TQ=="%string.
Proof. split; reflexivity. Qed.

Example atob_padding :
  Base64.atob "TWE=" = Ok "Ma"%string /\ Base64.atob " TQ" = Ok "M"%string.
Proof. split; reflexivity. Qed.

Example atob_rejects :
  Base64.atob "TWFuA" = Throw InvalidCharacterError
  /\ Base64.atob "TW*u" = Throw InvalidCharacterError.
Proof. split; reflexivity. Qed.

Example pcm_int16_samples :
  pcm_int16 [Fin 1; Fin (-1); Fin 0.5; NaN; PosInf; NegInf; Fin (-3); Fin (65535 # 65536)]
  = [32767; -32768; 16383; 0; 32767; -32768; -32768; 32766].
Proof. vm_compute. reflexivity. Qed.

Example createPcmBlob_full_scale :
  data (createPcmBlob [Fin 1; Fin (-1)]) = "/38AgA=="%string
  /\ base64ToUint8Array "/38AgA==" = Ok (pcm_bytes [Fin 1; Fin (-1)]).
Proof. split; vm_compute; reflexivity. Qed.

Example activity_samples :
  activity (Fin 0) (Fin 15) = speaking
  /\ activity (Fin 15) (Fin 0) = listening
  /\ activity (Fin 0) (Fin 0) = idle
  /\ activity NaN NaN = idle.
Proof. repeat split. Qed.

Example mean_empty : mean [] = NaN.
Proof. reflexivity. Qed.

(** ** The transport text encoding *)

Section Base64Facts.

Import Base64.

#[local] Ltac Zify.zify_post_hook ::= Z.to_euclidean_division_equations.

(** Lists taken three elements at a time. *)
Lemma list_ind3 {A : Type} (P : list A -> Prop) :
  P [] -> (forall a, P [a]) -> (forall a b, P [a; b]) ->
  (forall a b c r, P r -> P (a :: b :: c :: r)) ->
  forall l, P l.
Proof.
  intros H0 H1 H2 H3 l.
  assert (H : forall n (l : list A), (length l <= n)%nat -> P l).
  { induction n as [|n IH]; intros [|a [|b [|c r]]] Hn; auto; cbn in Hn; try lia.
    apply H3, IH. lia. }
  apply (H (length l)). lia.
Qed.

Lemma sextet_char_ok (n : N) : (n < 64)%N -> sextet_ok n = true.
Proof.
  intros Hn.
  assert (H : forallb sextet_ok (map N.of_nat (seq 0 64)) = true)
    by (vm_compute; reflexivity).
  rewrite forallb_forall in H. apply H.
  apply in_map_iff. exists (N.to_nat n). split; [lia|]. apply in_seq. lia.
Qed.

Lemma char_sextet_char (n : N) : (n < 64)%N -> char_sextet (sextet_char n) = Some n.
Proof.
  intros Hn. pose proof (sextet_char_ok n Hn) as H. unfold sextet_ok in H.
  apply andb_true_iff in H as [H _]. apply andb_true_iff in H as [H _].
  destruct (char_sextet (sextet_char n)) as [m|]; [|discriminate].
  apply N.eqb_eq in H. congruence.
Qed.

Lemma sextet_char_not_pad (n : N) : (n < 64)%N -> Ascii.eqb (sextet_char n) pad = false.
Proof.
  intros Hn. pose proof (sextet_char_ok n Hn) as H. unfold sextet_ok in H.
  apply andb_true_iff in H as [H _]. apply andb_true_iff in H as [_ H].
  apply negb_true_iff in H. exact H.
Qed.

Lemma sextet_char_not_space (n : N) : (n < 64)%N -> is_whitespace (sextet_char n) = false.
Proof.
  intros Hn. pose proof (sextet_char_ok n Hn) as H. unfold sextet_ok in H.
  apply andb_true_iff in H as [_ H]. apply negb_true_iff in H. exact H.
Qed.

Lemma encode_unpadded (l : list N) :
  encode l = map sextet_char (unpadded l) ++ padding l.
Proof.
  induction l as [|a|a b|a b c r IH] using list_ind3; try reflexivity.
  cbn [encode unpadded padding map app]. rewrite IH. reflexivity.
Qed.

Lemma unpadded_sextets (l : list N) :
  Forall (fun n => (n < 256)%N) l -> Forall (fun n => (n < 64)%N) (unpadded l).
Proof.
  induction l as [|a|a b|a b c r IH] using list_ind3; intros H.
  - constructor.
  - inversion_clear H as [|? ? Ha _]. cbn. repeat constructor; lia.
  - inversion_clear H as [|? ? Ha H']. inversion_clear H' as [|? ? Hb _].
    cbn. repeat constructor; lia.
  - inversion_clear H as [|? ? Ha H']. inversion_clear H' as [|? ? Hb H''].
    inversion_clear H'' as [|? ? Hc Hr].
    cbn [unpadded]. repeat (constructor; [lia|]). apply IH, Hr.
Qed.

Lemma decode_unpadded (l : list N) :
  Forall (fun n => (n < 256)%N) l -> decode (unpadded l) = l.
Proof.
  induction l as [|a|a b|a b c r IH] using list_ind3; intros H.
  - reflexivity.
  - inversion_clear H as [|? ? Ha _]. cbn. f_equal. lia.
  - inversion_clear H as [|? ? Ha H']. inversion_clear H' as [|? ? Hb _].
    cbn. f_equal; [lia|]. f_equal. lia.
  - inversion_clear H as [|? ? Ha H']. inversion_clear H' as [|? ? Hb H''].
    inversion_clear H'' as [|? ? Hc Hr].
    cbn [unpadded decode]. rewrite (IH Hr).
    f_equal; [lia|]. f_equal; [lia|]. f_equal. lia.
Qed.

Lemma sextets_chars (ns : list N) :
  Forall (fun n => (n < 64)%N) ns -> sextets (map sextet_char ns) = Some ns.
Proof.
  induction 1 as [|n ns Hn _ IH]; [reflexivity|].
  cbn [map sextets]. rewrite (char_sextet_char n Hn), IH. reflexivity.
Qed.

(** The unpadded text ends in a character of the alphabet, and exists
    whenever there is padding. *)
Lemma unpadded_snoc (l : list N) :
  l = [] \/ exists ns n, unpadded l = ns ++ [n].
Proof.
  induction l as [|a|a b|a b c r IH] using list_ind3.
  - left. reflexivity.
  - right. eexists [_], _. reflexivity.
  - right. eexists [_; _], _. reflexivity.
  - right. destruct IH as [-> | (ns & n & E)].
    + eexists [_; _; _], _. reflexivity.
    + cbn [unpadded]. rewrite E. eexists (_ :: _ :: _ :: _ :: ns), n. reflexivity.
Qed.

Lemma padding_cases (l : list N) :
  padding l = [] \/ padding l = [pad] \/ padding l = [pad; pad].
Proof.
  induction l as [|a|a b|a b c r IH] using list_ind3; cbn [padding]; auto.
Qed.

Lemma strip_padding_snoc (xs : list ascii) (x : ascii) (ps : list ascii) :
  Ascii.eqb x pad = false ->
  ps = [] \/ ps = [pad] \/ ps = [pad; pad] ->
  strip_padding (xs ++ x :: ps) = xs ++ [x].
Proof.
  intros Hx [-> | [-> | ->]]; unfold strip_padding.
  - rewrite rev_app_distr. cbn [rev app].
    destruct (rev xs) as [|q r]; [reflexivity|].
    cbn [app]. rewrite Hx. reflexivity.
  - replace (xs ++ [x; pad]) with ((xs ++ [x]) ++ [pad])
      by (rewrite <- app_assoc; reflexivity).
    rewrite rev_app_distr, rev_app_distr. cbn [rev app].
    rewrite Hx. cbn. rewrite rev_involutive. reflexivity.
  - replace (xs ++ [x; pad; pad]) with ((xs ++ [x]) ++ [pad; pad])
      by (rewrite <- app_assoc; reflexivity).
    rewrite rev_app_distr, rev_app_distr. cbn [rev app].
    cbn. rewrite rev_involutive. reflexivity.
Qed.

Lemma strip_padding_encode (l : list N) :
  Forall (fun n => (n < 256)%N) l ->
  strip_padding (encode l) = map sextet_char (unpadded l).
Proof.
  intros H. rewrite encode_unpadded.
  destruct (unpadded_snoc l) as [-> | (ns & n & E)]; [reflexivity|].
  pose proof (unpadded_sextets l H) as H6. rewrite E in H6 |- *.
  apply Forall_app in H6 as [_ Hn]. inversion_clear Hn as [|? ? Hn' _].
  rewrite map_app. cbn [map]. rewrite <- app_assoc. cbn [app].
  rewrite strip_padding_snoc.
  - reflexivity.
  - apply sextet_char_not_pad, Hn'.
  - apply padding_cases.
Qed.

Lemma encode_length (l : list N) : (length (encode l) mod 4 = 0)%nat.
Proof.
  induction l as [|a|a b|a b c r IH] using list_ind3; try reflexivity.
  cbn [encode length].
  replace (S (S (S (S (length (encode r)))))) with (length (encode r) + 1 * 4)%nat by lia.
  rewrite Nat.Div0.mod_add. exact IH.
Qed.

Lemma unpadded_length (l : list N) : (length (unpadded l) mod 4 <> 1)%nat.
Proof.
  induction l as [|a|a b|a b c r IH] using list_ind3; try (cbn; lia).
  cbn [unpadded length].
  replace (S (S (S (S (length (unpadded r)))))) with (length (unpadded r) + 1 * 4)%nat by lia.
  rewrite Nat.Div0.mod_add. exact IH.
Qed.

Lemma encode_no_space (l : list N) :
  Forall (fun n => (n < 256)%N) l ->
  filter (fun c => is_whitespace c = false) (encode l) = encode l.
Proof.
  intros H. rewrite encode_unpadded.
  assert (Hall : Forall (fun c => is_whitespace c = false)
                   (map sextet_char (unpadded l) ++ padding l)).
  { apply Forall_app. split.
    - apply Forall_map. eapply Forall_impl; [apply (unpadded_sextets l H)|].
      intros n Hn. apply sextet_char_not_space, Hn.
    - destruct (padding_cases l) as [-> | [-> | ->]]; repeat constructor. }
  induction Hall as [|c r Hc _ IH]; [reflexivity|].
  rewrite filter_cons_True by exact Hc. rewrite IH. reflexivity.
Qed.

Lemma atob_btoa (s : string) : atob (btoa s) = Ok s.
Proof.
  unfold atob, btoa. rewrite list_ascii_of_string_of_list_ascii.
  set (l := map N_of_ascii (list_ascii_of_string s)).
  assert (Hl : Forall (fun n => (n < 256)%N) l).
  { apply Forall_map, Forall_forall. intros c _. apply N_ascii_bounded. }
  rewrite (encode_no_space l Hl).
  rewrite (proj2 (Nat.eqb_eq _ _) (encode_length l)).
  rewrite (strip_padding_encode l Hl), length_map.
  rewrite (proj2 (Nat.eqb_neq _ _) (unpadded_length l)).
  rewrite (sextets_chars _ (unpadded_sextets l Hl)), (decode_unpadded l Hl).
  unfold l. rewrite map_map.
  rewrite (map_ext _ (fun c => c)) by apply ascii_N_embedding.
  rewrite map_id, string_of_list_ascii_of_string. reflexivity.
Qed.

End Base64Facts.

(** The bytes of a blob come back from its text. *)
Lemma base64_roundtrip (bytes : Uint8Array) :
  base64ToUint8Array (uint8ArrayToBase64 bytes) = Ok bytes.
Proof.
  unfold base64ToUint8Array, uint8ArrayToBase64.
  rewrite atob_btoa, list_ascii_of_string_of_list_ascii, map_map.
  rewrite (map_ext _ (fun b => b)) by apply byte_of_ascii_of_byte.
  rewrite map_id. reflexivity.
Qed.

(** ** The PCM codec *)

Lemma wrap16_range z : -32768 <= Num.wrap16 z < 32768.
Proof.
  unfold Num.wrap16. cbv zeta.
  pose proof (Z.mod_pos_bound z 65536 ltac:(lia)).
  destruct (32768 <=? z mod 65536) eqn:E; [apply Z.leb_le in E | apply Z.leb_gt in E]; lia.
Qed.

Lemma wrap16_small z : -32768 <= z < 32768 -> Num.wrap16 z = z.
Proof.
  intros Hz. unfold Num.wrap16. cbv zeta.
  destruct (32768 <=? z mod 65536) eqn:E; [apply Z.leb_le in E | apply Z.leb_gt in E];
    revert E; Z.div_mod_to_equations; lia.
Qed.

Lemma Z_of_byte_of_Z z : Z_of_byte (byte_of_Z z) = z mod 256.
Proof.
  unfold Z_of_byte, byte_of_Z.
  pose proof (Z.mod_pos_bound z 256 ltac:(lia)) as Hb.
  assert (Hn : (Z.to_N (z mod 256) < 256)%N) by lia.
  pose proof (byte_of_ascii_via_N (ascii_of_N (Z.to_N (z mod 256)))) as H.
  symmetry in H. apply Byte.to_of_N in H. rewrite H.
  rewrite N_ascii_embedding by exact Hn. lia.
Qed.

Lemma int16_view_buffer (a : Int16Array) :
  Forall (fun v => -32768 <= v < 32768) a -> int16_view (int16_buffer a) = Ok a.
Proof.
  induction 1 as [|v r Hv _ IH]; [reflexivity|].
  cbn [int16_buffer int16_view]. rewrite IH.
  rewrite !Z_of_byte_of_Z.
  replace (v mod 256 + 256 * ((v / 256) mod 256)) with (v mod 65536)
    by (Z.div_mod_to_equations; lia).
  f_equal. f_equal.
  rewrite <- (wrap16_small v Hv) at 2. unfold Num.wrap16; cbv zeta.
  rewrite Z.mod_mod by lia. reflexivity.
Qed.

Lemma pcm_sample_range x : -32768 <= pcm_sample x < 32768.
Proof.
  unfold pcm_sample. cbv zeta.
  destruct (if Num.lt (clamp x) (Fin 0) then _ else _); cbn; try lia; apply wrap16_range.
Qed.

Lemma pcm_roundtrip_eq samples :
  pcm_roundtrip samples =
  match samples with
  | [] => Throw NotSupportedError
  | _ :: _ => Ok (map (fun x => Fin (inject_Z (pcm_sample x) / 32768)) samples)
  end.
Proof.
  unfold pcm_roundtrip, createPcmBlob. cbn [data].
  rewrite base64_roundtrip.
  unfold decodeAudioData, pcm_bytes, pcm_int16.
  rewrite int16_view_buffer.
  - cbv zeta. rewrite map_map. destruct samples; reflexivity.
  - apply Forall_map. apply Forall_forall. intros x _. apply pcm_sample_range.
Qed.

Lemma Qltb_true x y : Num.Qltb x y = true <-> (x < y)%Q.
Proof.
  unfold Num.Qltb. rewrite negb_true_iff.
  split; intros H.
  - apply Qnot_le_lt. intros Hle. apply Qle_bool_iff in Hle. congruence.
  - destruct (Qle_bool y x) eqn:E; [|reflexivity].
    apply Qle_bool_iff in E. exfalso. exact (Qlt_not_le _ _ H E).
Qed.

Lemma Qltb_false x y : Num.Qltb x y = false <-> (y <= x)%Q.
Proof.
  unfold Num.Qltb. rewrite negb_false_iff. apply Qle_bool_iff.
Qed.

Lemma clamp_Fin q :
  clamp (Fin q) =
  Fin (if Num.Qltb q 1 then if Num.Qltb (-1) q then q else -1 else 1)%Q.
Proof.
  unfold clamp. cbn. destruct (Num.Qltb q 1); cbn; [|reflexivity].
  destruct (Num.Qltb (-1) q); reflexivity.
Qed.

Lemma quantize_near (c : Q) :
  (-1 <= c <= 1)%Q ->
  let s := Fin c in
  let v := Num.ToInt16 (if Num.lt s (Fin 0) then Num.mul s (Fin 32768)
                        else Num.mul s (Fin 32767)) in
  ((c <= 0 -> Qabs (inject_Z v / 32768 - c) < 1 # 32768)
   /\ (0 < c -> c / 32768 <= c - inject_Z v / 32768 < (1 + c) / 32768))%Q.
Proof.
  intros [Hlo Hhi]. cbv zeta. cbn [Num.lt Num.mul].
  destruct c as [n d]. unfold Qle in Hlo, Hhi. cbn in Hlo, Hhi.
  destruct (Num.Qltb (n # d) 0) eqn:E.
  - apply Qltb_true in E. unfold Qlt in E. cbn in E.
    cbn [Num.ToInt16]. unfold Num.trunc. cbn [Qnum Qden Qmult].
    rewrite wrap16_small by (Z.quot_rem_to_equations; nia).
    split.
    + intros _. apply Qabs_Qlt_condition.
      unfold Qlt, Qminus, Qdiv, Qplus, Qopp, Qmult, Qinv, inject_Z.
      cbn [Qnum Qden]. Z.quot_rem_to_equations. nia.
    + intros H. unfold Qlt in H. cbn in H. lia.
  - apply Qltb_false in E. unfold Qle in E. cbn in E.
    cbn [Num.ToInt16]. unfold Num.trunc. cbn [Qnum Qden Qmult].
    rewrite wrap16_small by (Z.quot_rem_to_equations; nia).
    split.
    + intros H. unfold Qle in H. cbn in H. apply Qabs_Qlt_condition.
      unfold Qlt, Qminus, Qdiv, Qplus, Qopp, Qmult, Qinv, inject_Z.
      cbn [Qnum Qden]. Z.quot_rem_to_equations. nia.
    + intros _.
      unfold Qle, Qlt, Qminus, Qdiv, Qplus, Qopp, Qmult, Qinv, inject_Z.
      cbn [Qnum Qden]. Z.quot_rem_to_equations. nia.
Qed.

Lemma clamp_Fin_range q :
  exists c, clamp (Fin q) = Fin c /\ (-1 <= c <= 1)%Q.
Proof.
  rewrite clamp_Fin. eexists; split; [reflexivity|].
  destruct (Num.Qltb q 1) eqn:E1.
  - apply Qltb_true in E1. destruct (Num.Qltb (-1) q) eqn:E2.
    + apply Qltb_true in E2. split; apply Qlt_le_weak; assumption.
    + split; [apply Qle_refl | discriminate].
  - split; [discriminate | apply Qle_refl].
Qed.

Lemma sample_decoded_near x :
  decoded_near x (Fin (inject_Z (pcm_sample x) / 32768)).
Proof.
  destruct x as [| | |q].
  - reflexivity.
  - change (decoded_near (Fin (-1)) (Fin (inject_Z (pcm_sample (Fin (-1))) / 32768))).
    unfold decoded_near, pcm_sample. cbv zeta.
    destruct (clamp_Fin_range (-1)) as [c [-> Hc]].
    exact (quantize_near c Hc).
  - change (decoded_near (Fin 1) (Fin (inject_Z (pcm_sample (Fin 1)) / 32768))).
    unfold decoded_near, pcm_sample. cbv zeta.
    destruct (clamp_Fin_range 1) as [c [-> Hc]].
    exact (quantize_near c Hc).
  - unfold decoded_near, pcm_sample. cbv zeta.
    destruct (clamp_Fin_range q) as [c [-> Hc]].
    exact (quantize_near c Hc).
Qed.

(** C2, as the code has it.  For every frame of at least one sample,
    encoding it with [createPcmBlob] and decoding the text of the blob
    with [base64ToUint8Array] and [decodeAudioData] succeeds and returns
    as many samples.  A sample whose clamped value is zero or negative
    comes back less than one quantization step (1/32768) from it; a
    positive one comes back lower, by at least [s/32768] and by less
    than [(1 + s)/32768], so by less than two steps; a [NaN] sample
    comes back as zero.  The encoder rejects nothing: infinities are
    clamped like any other out-of-range value.  Of the empty frame the
    encoding succeeds as well, and the decoding throws, since
    [createBuffer] refuses a buffer of zero frames. *)
Theorem pcm_roundtrip_near (samples : Float32Array) :
  match samples with
  | [] =>
      base64ToUint8Array (data (createPcmBlob samples)) = Ok []
      /\ pcm_roundtrip samples = Throw NotSupportedError
  | _ :: _ =>
      exists out, pcm_roundtrip samples = Ok out /\ Forall2 decoded_near samples out
  end.
Proof.
  rewrite pcm_roundtrip_eq. destruct samples as [|x0 r0]; [split; reflexivity|].
  eexists; split; [reflexivity|].
  generalize (x0 :: r0). intros samples.
  induction samples as [|x r IH]; cbn [map]; constructor.
  - apply sample_decoded_near.
  - exact IH.
Qed.

(** C2, as stated, fails: the sample 65535/65536 is encoded as 32766 and
    decoded as 32766/32768, one and a half steps below it. *)
Lemma pcm_roundtrip_one_step_fails :
  ~ roundtrip_within (1 # 32768) [Fin (65535 # 65536)].
Proof.
  intros [out [H F]]. rewrite pcm_roundtrip_eq in H.
  injection H as <-. inversion F as [|x y l l' Hw _]; subst.
  vm_compute in Hw. apply Hw. reflexivity.
Qed.

(** ** What each callback leaves alone *)

Section Frame.

(** What [stopSession] leaves alone. *)
Lemma stopSession_keeps c :
  let c' := stopSession c in
  nextStartTimeRef (refs c') = nextStartTimeRef (refs c)
  /\ sourcesRef (refs c') = sourcesRef (refs c)
  /\ sources (page c') = sources (page c)
  /\ sessions (page c') = sessions (page c)
  /\ pending (page c') = pending (page c)
  /\ isMuted (state c') = isMuted (state c)
  /\ props c' = props c
  /\ console (page c') = console (page c)
  /\ uncaught (page c') = uncaught (page c).
Proof.
  destruct c as [pr st [a i s cur srcs se af ia oa tt] pg].
  unfold stopSession. cbn.
  destruct (af =? 0)%nat, s, i, a; cbn; repeat split; reflexivity.
Qed.

(** What [stopSession] releases. *)
Lemma stopSession_releases c :
  let c' := stopSession c in
  audioContextRef (refs c') = None
  /\ streamRef (refs c') = None
  /\ inputNodeRef (refs c') = None
  /\ sessionRef (refs c') = None
  /\ contexts (page c') =
       match audioContextRef (refs c) with
       | Some a => <[a := true]> (contexts (page c))
       | None => contexts (page c)
       end
  /\ streams (page c') =
       match streamRef (refs c) with
       | Some s => <[s := true]> (streams (page c))
       | None => streams (page c)
       end
  /\ processors (page c') =
       match inputNodeRef (refs c) with
       | Some n =>
           alter (fun p => {| sp_connected := false; sp_isMuted := sp_isMuted p |})
             n (processors (page c))
       | None => processors (page c)
       end.
Proof.
  destruct c as [pr st [a i s cur srcs se af ia oa tt] pg].
  unfold stopSession. cbn.
  destruct (af =? 0)%nat, s, i, a; cbn; repeat split; reflexivity.
Qed.

Ltac fields c := destruct c as [[] [] [] []].

Ltac crush_step :=
  cbn; repeat (case_match; cbn); try reflexivity.

Lemma renderVisualizer_isMuted inBins outBins c :
  isMuted (state (renderVisualizer inBins outBins c)) = isMuted (state c).
Proof. unfold renderVisualizer. fields c. crush_step. Qed.

Lemma handleServerMessage_isMuted message ctx now c :
  isMuted (state (handleServerMessage message ctx now c)) = isMuted (state c).
Proof.
  unfold handleServerMessage, applyTranscription, playAudio, setTranscript.
  fields c. crush_step.
Qed.

(** A render leaves the component alone, or stops and starts a
    session, or stops it. *)
Lemma render_cases a m c :
  render a m c = c
  \/ render a m c =
       startSession (with_props (fun _ => {| active := true; mode := m |}) (stopSession c))
  \/ render a m c =
       stopSession (with_props (fun _ => {| active := false; mode := m |}) (stopSession c)).
Proof.
  unfold render. case_decide; [left; reflexivity|].
  destruct a; [right; left | right; right]; reflexivity.
Qed.

Lemma state_with_props f c : state (with_props f c) = state c.
Proof. reflexivity. Qed.

Lemma startSession_isMuted c :
  isMuted (state (startSession c)) = isMuted (state c).
Proof. reflexivity. Qed.

Lemma stopSession_isMuted c :
  isMuted (state (stopSession c)) = isMuted (state c).
Proof. apply stopSession_keeps. Qed.

Lemma render_isMuted a m c :
  isMuted (state (render a m c)) = isMuted (state c).
Proof.
  destruct (render_cases a m c) as [-> | [-> | ->]]; [reflexivity | |].
  - rewrite startSession_isMuted, state_with_props. apply stopSession_isMuted.
  - rewrite stopSession_isMuted, state_with_props. apply stopSession_isMuted.
Qed.

Lemma connectSession_state p c : state (connectSession p c) = state c.
Proof. reflexivity. Qed.

Lemma resumeStart_isMuted p granted inBins outBins c :
  isMuted (state (resumeStart p granted inBins outBins c)) = isMuted (state c).
Proof.
  unfold resumeStart. destruct granted; [|reflexivity].
  rewrite connectSession_state, renderVisualizer_isMuted. reflexivity.
Qed.

Lemma step_isMuted c e :
  e <> MuteClick -> isMuted (state (step c e)) = isMuted (state c).
Proof.
  intros He. destruct e; cbn [step]; try congruence.
  - apply render_isMuted.
  - apply render_isMuted.
  - case_match; [|reflexivity]. rewrite resumeStart_isMuted. reflexivity.
  - unfold onaudioprocess. repeat case_match; reflexivity.
  - repeat case_match; reflexivity.
  - repeat case_match; try reflexivity. apply handleServerMessage_isMuted.
  - repeat case_match; reflexivity.
  - repeat case_match; reflexivity.
  - unfold sourceEnded. case_match; reflexivity.
  - case_decide; [|reflexivity]. rewrite renderVisualizer_isMuted. reflexivity.
  - unfold transcriptTimeout. case_match; reflexivity.
Qed.

Lemma stopSession_playback c : playback (stopSession c) = playback c.
Proof.
  unfold playback.
  destruct (stopSession_keeps c) as (-> & -> & -> & _). reflexivity.
Qed.

Lemma renderVisualizer_playback inBins outBins c :
  playback (renderVisualizer inBins outBins c) = playback c.
Proof. unfold renderVisualizer. case_match; reflexivity. Qed.

Lemma startSession_playback c : playback (startSession c) = playback c.
Proof. reflexivity. Qed.

Lemma with_props_playback f c : playback (with_props f c) = playback c.
Proof. reflexivity. Qed.

Lemma render_playback a m c : playback (render a m c) = playback c.
Proof.
  destruct (render_cases a m c) as [-> | [-> | ->]]; [reflexivity | |].
  - rewrite startSession_playback, with_props_playback. apply stopSession_playback.
  - rewrite stopSession_playback, with_props_playback. apply stopSession_playback.
Qed.

Lemma connectSession_playback p c : playback (connectSession p c) = playback c.
Proof. reflexivity. Qed.

Lemma inputSetup_playback p c : playback (inputSetup p c) = playback c.
Proof. reflexivity. Qed.

Lemma resumeStart_playback p granted inBins outBins c :
  playback (resumeStart p granted inBins outBins c) = playback c.
Proof.
  unfold resumeStart. destruct granted; [|reflexivity].
  rewrite connectSession_playback, renderVisualizer_playback.
  apply inputSetup_playback.
Qed.

Lemma applyTranscription_playback message c :
  playback (applyTranscription message c) = playback c.
Proof. unfold applyTranscription. repeat case_match; reflexivity. Qed.

(** Only a server message and the end of a source touch the playback
    state. *)
Lemma step_playback c e :
  match e with
  | SessionMessage _ _ _ | SourceEnded _ => True
  | _ => playback (step c e) = playback c
  end.
Proof.
  destruct e; cbn [step]; try exact I.
  - apply render_playback.
  - apply render_playback.
  - case_match; reflexivity.
  - case_match; [|reflexivity]. rewrite resumeStart_playback. reflexivity.
  - unfold onaudioprocess. repeat case_match; reflexivity.
  - repeat case_match; reflexivity.
  - repeat case_match; reflexivity.
  - repeat case_match; reflexivity.
  - case_decide; [|reflexivity]. rewrite renderVisualizer_playback. reflexivity.
  - unfold transcriptTimeout. case_match; reflexivity.
Qed.

Lemma handleServerMessage_playback message ctx now c buffer :
  inlineAudio message = Some (Ok buffer) ->
  playback (handleServerMessage message ctx now c) =
  playback (playAudio buffer ctx now c).
Proof.
  intros H. unfold handleServerMessage. rewrite H.
  apply applyTranscription_playback.
Qed.

Lemma onaudioprocess_without_session node inputData c :
  sessionRef (refs c) = None ->
  onaudioprocess node inputData c = c.
Proof.
  intros H. unfold onaudioprocess. rewrite H. repeat case_match; reflexivity.
Qed.

End Frame.

(** ** The playback scheduler *)

Lemma Qltb_max (x y : Q) : ((if Num.Qltb x y then y else x) == Qmax y x)%Q.
Proof.
  destruct (Num.Qltb x y) eqn:E.
  - apply Qltb_true in E. symmetry. apply Q.max_l. apply Qlt_le_weak. exact E.
  - apply Qltb_false in E. symmetry. apply Q.max_r. exact E.
Qed.


Section PlayAudio.

Context (buffer : AudioBuffer) (ctx : nat) (now : Q) (c : VoiceInterface).

(** The start that [playAudio] gives to the source. *)
Let start : Q :=
  if Num.Qltb (nextStartTimeRef (refs c)) (double now) then double now
  else nextStartTimeRef (refs c).

Lemma playAudio_cursor :
  nextStartTimeRef (refs (playAudio buffer ctx now c)) = double (start + duration buffer).
Proof. unfold playAudio, start. cbv zeta. destruct (Num.Qltb _ (double now)); reflexivity. Qed.

Lemma playAudio_sources :
  sources (page (playAudio buffer ctx now c)) =
  sources (page c) ++ [{| src_ctx := ctx; src_buffer := buffer; src_start := start |}].
Proof. unfold playAudio, start. cbv zeta. destruct (Num.Qltb _ (double now)); reflexivity. Qed.

Lemma playAudio_sourcesRef :
  sourcesRef (refs (playAudio buffer ctx now c)) =
  {[length (sources (page c))]} ∪ sourcesRef (refs c).
Proof. unfold playAudio. cbv zeta. destruct (Num.Qltb _ (double now)); reflexivity. Qed.



Lemma start_after_cursor : (nextStartTimeRef (refs c) <= start)%Q.
Proof. unfold start. rewrite Qltb_max. apply Q.le_max_r. Qed.

Hypothesis cursor_double :
  (double (nextStartTimeRef (refs c)) == nextStartTimeRef (refs c))%Q.





End PlayAudio.

Lemma rounding_bound (x : Q) : (x - rounding x <= double x)%Q.
Proof.
  pose proof (double_error x) as H. fold (rounding x) in H.
  destruct (Qabs_lower (x - double x)) as [H1 _]. lra.
Qed.








(** ** The session lifecycle *)

(** C9.  Along every sequence of events without a click on the mute
    button (session starts and stops, microphone grants and refusals,
    transport errors, messages, frames, timers), the mute flag stays
    what it was. *)
Theorem mute_persists (c : VoiceInterface) (es : list event) :
  Forall (fun e => e <> MuteClick) es ->
  isMuted (state (run c es)) = isMuted (state c).
Proof.
  intros H. revert c. induction H as [|e es He _ IH]; intros c; [reflexivity|].
  unfold run in *. cbn [fold_left]. rewrite IH. apply step_isMuted. exact He.
Qed.

Lemma mute_persists_witness :
  Forall (fun e => e <> MuteClick) error_then_restart
  /\ isMuted (state (run muted_session error_then_restart)) = true.
Proof.
  assert (H : Forall (fun e => e <> MuteClick) error_then_restart)
    by (unfold error_then_restart; repeat (constructor; [discriminate|]); constructor).
  split; [exact H|].
  rewrite (mute_persists muted_session error_then_restart H).
  vm_compute. reflexivity.
Defined.

(** C4, as the code has it.  [stopSession] closes the playback context
    of the session and clears the ref to it, and that is all it does to
    playback: the set of active sources and the cursor are left as they
    were (a source leaves the set through its own [onended] only), and
    closing, starting again and being granted the microphone do not
    touch them either, so the next session begins with the cursor and
    the set of the previous one. *)
Theorem stop_keeps_playback_state (c : VoiceInterface) :
  audioContextRef (refs (stopSession c)) = None
  /\ contexts (page (stopSession c)) =
       match audioContextRef (refs c) with
       | Some a => <[a := true]> (contexts (page c))
       | None => contexts (page c)
       end
  /\ playback (stopSession c) = playback c
  /\ forall m i granted inBins outBins,
       playback (run c [CloseClick; VoiceStart m; MicSettled i granted inBins outBins])
       = playback c.
Proof.
  destruct (stopSession_releases c) as (Ha & _ & _ & _ & Hc & _).
  repeat split; [exact Ha | exact Hc | apply stopSession_playback |].
  intros m i granted inBins outBins. unfold run. cbn [fold_left].
  rewrite (step_playback _ (MicSettled i granted inBins outBins)).
  rewrite (step_playback _ (VoiceStart m)).
  apply (step_playback _ CloseClick).
Qed.

(** C4, as stated, fails: after one chunk of audio and a stop, the
    source is still in the set and the cursor still stands at the end of
    that chunk; a new session finds them so. *)
Lemma stop_does_not_reset_playback :
  let stopped := step talking_session CloseClick in
  let restarted := run stopped [VoiceStart Collaborative; MicSettled 0 true [] []] in
  elements (sourcesRef (refs stopped)) = [0%nat]
  /\ ~ (nextStartTimeRef (refs stopped) == 0)%Q
  /\ elements (sourcesRef (refs restarted)) = [0%nat]
  /\ ~ (nextStartTimeRef (refs restarted) == 0)%Q.
Proof.
  cbv zeta.
  split; [vm_compute; reflexivity|]. split; [vm_compute; discriminate|].
  split; [vm_compute; reflexivity | vm_compute; discriminate].
Qed.

Lemma handleServerMessage_contexts message ctx now c :
  contexts (page (handleServerMessage message ctx now c)) = contexts (page c).
Proof.
  unfold handleServerMessage, applyTranscription, playAudio.
  repeat case_match; reflexivity.
Qed.

(** C3, as the code has it.  [handleServerMessage] tests no flag of the
    session: a message that arrives on the callbacks of the active
    session after [stopSession] ran is handled like any other.  When it
    carries audio that decodes, a source is started on the context that
    the callbacks hold, which the stop has closed, at
    [max(now, cursor)]; it joins the set of active sources, and the
    cursor moves to the double that the addition gives for that start
    plus the duration.  What the stop does cut is the outbound path:
    with the session ref cleared, a capture frame changes nothing. *)
Theorem late_message_is_scheduled
    (c : VoiceInterface) (k : nat) (s : LiveSession)
    (message : LiveServerMessage) (now : Q) (buffer : AudioBuffer) :
  sessions (page c) !! k = Some s ->
  readyState s = Open ->
  audioContextRef (refs c) = Some (cb_ctx s) ->
  contexts (page c) !! cb_ctx s = Some false ->
  inlineAudio message = Some (Ok buffer) ->
  let stopped := stopSession c in
  let late := step stopped (SessionMessage k message now) in
  let start :=
    if Num.Qltb (nextStartTimeRef (refs c)) (double now) then double now
    else nextStartTimeRef (refs c) in
  contexts (page late) !! cb_ctx s = Some true
  /\ playback late =
       (double (start + duration buffer),
        {[length (sources (page c))]} ∪ sourcesRef (refs c),
        sources (page c) ++
          [{| src_ctx := cb_ctx s; src_buffer := buffer; src_start := start |}])
  /\ forall node inputData, onaudioprocess node inputData stopped = stopped.
Proof.
  intros Hk Hopen Href Hctx Haudio stopped late start.
  destruct (stopSession_keeps c) as (Hcur & Hset & Hsrc & Hses & _).
  destruct (stopSession_releases c) as (_ & _ & _ & Hnone & Hclosed & _).
  fold stopped in Hcur, Hset, Hsrc, Hses, Hnone, Hclosed.
  assert (Hlate : late = handleServerMessage message (cb_ctx s) now stopped).
  { unfold late. cbn [step]. rewrite Hses, Hk, Hopen. reflexivity. }
  split; [|split].
  - rewrite Hlate, handleServerMessage_contexts, Hclosed, Href.
    apply list_lookup_insert_eq. apply lookup_lt_Some in Hctx. exact Hctx.
  - rewrite Hlate, (handleServerMessage_playback _ _ _ _ buffer Haudio).
    unfold playback.
    rewrite playAudio_cursor, playAudio_sourcesRef, playAudio_sources.
    rewrite Hcur, Hset, Hsrc. reflexivity.
  - intros node inputData. apply onaudioprocess_without_session. exact Hnone.
Qed.

Lemma late_message_is_scheduled_witness :
  let b := {| numberOfChannels := 1;
              channelData := [Fin (0 / 32768); Fin (0 / 32768)];
              sampleRate := 24000 |} in
  let late := step (stopSession talking_session) (SessionMessage 0 silence 2) in
  sessions (page talking_session) !! 0%nat
    = Some {| readyState := Open; cb_ctx := 0; systemMode := Collaborative; sent := [] |}
  /\ contexts (page late) !! 0%nat = Some true
  /\ playback late =
       (double (2 + duration b),
        {[1%nat]} ∪ sourcesRef (refs talking_session),
        sources (page talking_session) ++
          [{| src_ctx := 0; src_buffer := b; src_start := 2 |}]).
Proof.
  intros b late.
  split; [vm_compute; reflexivity|].
  destruct (late_message_is_scheduled talking_session 0
              {| readyState := Open; cb_ctx := 0; systemMode := Collaborative; sent := [] |}
              silence 2 b) as (H1 & H2 & _); try (vm_compute; reflexivity).
  split; [exact H1 | exact H2].
Defined.

(** C3, as stated, fails: the session is stopped, then a chunk arrives
    on its callbacks at clock 2; a second source is started on the
    closed context and the cursor moves from 0.5000833333333333 to
    2.0000833333333334. *)
Lemma late_message_moves_cursor :
  let stopped := step talking_session CloseClick in
  let late := step stopped (SessionMessage 0 silence 2) in
  sessionRef (refs stopped) = None
  /\ contexts (page stopped) = [true]
  /\ (nextStartTimeRef (refs stopped) == 4504350227308391 # 9007199254740992)%Q
  /\ (nextStartTimeRef (refs late) == 2251893638677485 # 1125899906842624)%Q
  /\ length (sources (page stopped)) = 1%nat
  /\ (src_ctx <$> sources (page late)) = [0%nat; 0%nat].
Proof. cbv zeta. repeat (split; [vm_compute; reflexivity|]). vm_compute; reflexivity. Qed.

Lemma renderVisualizer_sessions inBins outBins c :
  sessions (page (renderVisualizer inBins outBins c)) = sessions (page c).
Proof. unfold renderVisualizer. case_match; reflexivity. Qed.

Lemma resumeStart_sessions p inBins outBins c :
  sessions (page (resumeStart p true inBins outBins c)) =
  sessions (page c) ++
    [{| readyState := Connecting; cb_ctx := ps_ctx p;
        systemMode := ps_mode p; sent := [] |}].
Proof.
  unfold resumeStart.
  change (sessions (page (renderVisualizer inBins outBins (inputSetup p c))) ++
            [{| readyState := Connecting; cb_ctx := ps_ctx p;
                systemMode := ps_mode p; sent := [] |}]
          = sessions (page c) ++
            [{| readyState := Connecting; cb_ctx := ps_ctx p;
                systemMode := ps_mode p; sent := [] |}]).
  rewrite renderVisualizer_sessions. reflexivity.
Qed.

Lemma openSessions_snoc (l : list LiveSession) (s : LiveSession) :
  readyState s <> Closed ->
  filter (fun s => readyState s ≠ Closed) (l ++ [s]) =
  filter (fun s => readyState s ≠ Closed) l ++ [s].
Proof.
  intros H. rewrite filter_app. f_equal.
  rewrite filter_cons_True by exact H. reflexivity.
Qed.

(** C7, as the code has it.  When the mode changes while a session is
    running, the cleanup of the effect runs [stopSession] before the
    new [startSession]: the microphone tracks are stopped, the capture
    node is disconnected, the playback context is closed and the session
    ref is dropped; the new connection is opened only later, when the
    microphone is granted again.  No step of this closes the transport
    connection of the old session: the table of sessions is unchanged by
    the teardown, and once the new connection exists the connections
    that are not closed are the previous ones and the new one. *)
Theorem mode_change_restarts
    (c : VoiceInterface) (m : CollaborationMode) (s n a k : nat) :
  m <> mode (props c) ->
  streamRef (refs c) = Some s ->
  inputNodeRef (refs c) = Some n ->
  audioContextRef (refs c) = Some a ->
  sessionRef (refs c) = Some k ->
  let torn := step c (VoiceStart m) in
  let fresh :=
    {| readyState := Connecting; cb_ctx := length (contexts (page c));
       systemMode := m; sent := [] |} in
  streams (page torn) = <[s := true]> (streams (page c))
  /\ processors (page torn) =
       alter (fun p => {| sp_connected := false; sp_isMuted := sp_isMuted p |})
         n (processors (page c))
  /\ contexts (page torn) = <[a := true]> (contexts (page c)) ++ [false]
  /\ sessionRef (refs torn) = None
  /\ sessions (page torn) = sessions (page c)
  /\ forall inBins outBins,
       let again := step torn (MicSettled (length (pending (page c))) true inBins outBins) in
       sessions (page again) = sessions (page c) ++ [fresh]
       /\ openSessions again = openSessions c ++ [fresh].
Proof.
  intros Hm Hs Hn Ha Hk torn fresh.
  destruct (stopSession_keeps c) as (_ & _ & _ & Hses & Hpend & Hmute & Hprops & _).
  destruct (stopSession_releases c) as (_ & _ & _ & Hnone & Hctx & Hstr & Hproc).
  rewrite Ha in Hctx. rewrite Hs in Hstr. rewrite Hn in Hproc.
  assert (Htorn : torn =
            startSession
              (with_props (fun _ => {| active := true; mode := m |}) (stopSession c))).
  { unfold torn. cbn [step]. unfold render.
    case_decide as Hd; [destruct Hd as [_ Hd]; contradiction | reflexivity]. }
  clearbody torn.
  assert (Hp : pending (page torn) =
               pending (page c) ++
                 [{| ps_ctx := length (contexts (page c));
                     ps_isMuted := isMuted (state c); ps_mode := m |}]).
  { rewrite Htorn. remember (stopSession c) as c0 eqn:E0.
    unfold startSession. cbn.
    rewrite Hpend, Hmute, Hctx, length_insert. reflexivity. }
  assert (Hst : sessions (page torn) = sessions (page c)).
  { rewrite Htorn. exact Hses. }
  repeat split.
  - rewrite Htorn. exact Hstr.
  - rewrite Htorn. exact Hproc.
  - rewrite Htorn. remember (stopSession c) as c0 eqn:E0.
    unfold startSession. cbn. rewrite Hctx. reflexivity.
  - rewrite Htorn. exact Hnone.
  - exact Hst.
  - cbn [step]. rewrite Hp, list_lookup_middle by reflexivity.
    rewrite resumeStart_sessions. cbn. rewrite Hst. reflexivity.
  - unfold openSessions. cbn [step]. rewrite Hp, list_lookup_middle by reflexivity.
    rewrite resumeStart_sessions. cbn. rewrite Hst.
    apply openSessions_snoc. discriminate.
Qed.

Lemma mode_change_restarts_witness :
  let c := connected_session in
  Competitive <> mode (props c)
  /\ streams (page (step c (VoiceStart Competitive))) = <[0%nat := true]> (streams (page c))
  /\ sessions (page (step c (VoiceStart Competitive))) = sessions (page c)
  /\ openSessions
       (step (step c (VoiceStart Competitive))
          (MicSettled (length (pending (page c))) true [] []))
     = openSessions c ++
         [{| readyState := Connecting; cb_ctx := length (contexts (page c));
             systemMode := Competitive; sent := [] |}].
Proof.
  cbv zeta.
  assert (Hm : Competitive <> mode (props connected_session))
    by (vm_compute; discriminate).
  destruct (mode_change_restarts connected_session Competitive 0 0 0 0 Hm)
    as (Hs & _ & _ & _ & Hses & Hagain);
    [vm_compute; reflexivity .. |].
  split; [exact Hm|]. split; [exact Hs|]. split; [exact Hses|].
  apply (Hagain [] []).
Defined.

(** C7, as stated, fails: after a change of mode in a connected session
    and the opening of the new transport, both connections are open. *)
Lemma two_connections_open :
  let c :=
    run connected_session
      [VoiceStart Competitive; MicSettled 0 true [] []; SessionOpened 1] in
  (readyState <$> sessions (page c)) = [Open; Open]
  /\ (systemMode <$> sessions (page c)) = [Collaborative; Competitive]
  /\ length (openSessions c) = 2%nat.
Proof. cbv zeta. repeat (split; [vm_compute; reflexivity|]). vm_compute; reflexivity. Qed.

(** An odd number of bytes is what makes [decodeAudioData] throw. *)
Lemma int16_view_parity (n : nat) (d : Uint8Array) :
  (length d <= n)%nat ->
  if Nat.even (length d)
  then exists a, int16_view d = Ok a
  else int16_view d = Throw RangeError.
Proof.
  revert d. induction n as [|n IH]; intros d Hn.
  - destruct d; [cbn; eauto | cbn in Hn; lia].
  - destruct d as [|lo [|hi r]]; [cbn; eauto | reflexivity |].
    assert (Hr : (length r <= n)%nat) by (cbn in Hn; lia).
    specialize (IH r Hr).
    change (Nat.even (length (lo :: hi :: r))) with (Nat.even (length r)).
    cbn [int16_view].
    destruct (Nat.even (length r)).
    + destruct IH as [a ->]. eauto.
    + rewrite IH. reflexivity.
Qed.

Lemma decodeAudioData_odd (d : Uint8Array) :
  Nat.even (length d) = false -> decodeAudioData d = Throw RangeError.
Proof.
  intros H. pose proof (int16_view_parity (length d) d (le_n _)) as P.
  rewrite H in P. unfold decodeAudioData. rewrite P. reflexivity.
Qed.

Lemma list_ind2 {A : Type} (P : list A -> Prop) :
  P [] -> (forall a, P [a]) -> (forall a b r, P r -> P (a :: b :: r)) ->
  forall l, P l.
Proof.
  intros H0 H1 H2 l.
  assert (H : forall n (l : list A), (length l <= n)%nat -> P l).
  { induction n as [|n IH]; intros [|a [|b r]] Hn; auto; cbn in Hn; try lia.
    apply H2, IH. lia. }
  apply (H (length l)). lia.
Qed.

Lemma int16_view_shape (d : Uint8Array) (a : Int16Array) :
  int16_view d = Ok a ->
  length d = (2 * length a)%nat /\ Forall (fun v => -32768 <= v < 32768) a.
Proof.
  revert a. induction d as [|lo|lo hi r IH] using list_ind2; intros a H.
  - injection H as <-. split; [reflexivity | constructor].
  - discriminate.
  - cbn [int16_view] in H. destruct (int16_view r) as [a'|e]; [|discriminate].
    injection H as <-. destruct (IH a' eq_refl) as [Hl Hr].
    split; [cbn [length]; lia|].
    constructor; [apply wrap16_range | exact Hr].
Qed.

(** The three ways in which a payload does not decode: text that is
    not base64, an odd number of bytes, and no byte at all. *)
Lemma decodeAudioData_throws (d : Uint8Array) (e : exn) :
  decodeAudioData d = Throw e ->
  (Nat.even (length d) = false /\ e = RangeError) \/ (d = [] /\ e = NotSupportedError).
Proof.
  intros H. destruct (Nat.even (length d)) eqn:E.
  - right. pose proof (int16_view_parity (length d) d (le_n _)) as P. rewrite E in P.
    destruct P as [a Ha]. destruct (int16_view_shape d a Ha) as [Hl _].
    unfold decodeAudioData in H. rewrite Ha in H. cbv zeta in H.
    destruct a as [|v a]; [|discriminate H].
    injection H as <-. split; [|reflexivity].
    destruct d; [reflexivity | discriminate Hl].
  - left. rewrite (decodeAudioData_odd d E) in H. injection H as <-. auto.
Qed.

Lemma base64ToUint8Array_throws (base64 : string) (e : exn) :
  base64ToUint8Array base64 = Throw e -> e = InvalidCharacterError.
Proof.
  unfold base64ToUint8Array.
  destruct (Base64.atob base64) as [binary|e'] eqn:A; intros E; [discriminate E|].
  injection E as <-. revert A. unfold Base64.atob. cbv zeta.
  repeat case_match; congruence.
Qed.

Lemma inlineAudio_throws (message : LiveServerMessage) (e : exn) :
  inlineAudio message = Some (Throw e) ->
  exists payload,
    truthy (inlineData message) = Some payload
    /\ ((base64ToUint8Array payload = Throw e /\ e = InvalidCharacterError)
        \/ (exists bytes, base64ToUint8Array payload = Ok bytes
                          /\ Nat.even (length bytes) = false /\ e = RangeError)
        \/ (base64ToUint8Array payload = Ok [] /\ e = NotSupportedError)).
Proof.
  unfold inlineAudio. destruct (truthy (inlineData message)) as [payload|]; [|discriminate].
  intros H. injection H as H. exists payload. split; [reflexivity|].
  destruct (base64ToUint8Array payload) as [bytes|e'] eqn:B.
  - right. destruct (decodeAudioData_throws bytes e H) as [[Ho ->] | [-> ->]].
    + left. exists bytes. auto.
    + right. auto.
  - left. injection H as <-. split; [reflexivity|].
    apply (base64ToUint8Array_throws payload), B.
Qed.

(** An exception left uncaught changes nothing for the messages that
    follow. *)
Lemma handleServerMessage_after_uncaught u message ctx now c :
  playback (handleServerMessage message ctx now (set_uncaught u c))
    = playback (handleServerMessage message ctx now c)
  /\ state (handleServerMessage message ctx now (set_uncaught u c))
    = state (handleServerMessage message ctx now c).
Proof.
  assert (Hplay : forall buffer,
            playAudio buffer ctx now (set_uncaught u c)
            = set_uncaught u (playAudio buffer ctx now c)).
  { intros buffer. unfold playAudio. cbv zeta.
    change (nextStartTimeRef (refs (set_uncaught u c))) with (nextStartTimeRef (refs c)).
    destruct (Num.Qltb (nextStartTimeRef (refs c)) (double now)); reflexivity. }
  assert (Happly : forall x,
            applyTranscription message (set_uncaught u x)
            = set_uncaught u (applyTranscription message x)).
  { intros x. unfold applyTranscription. cbv zeta.
    destruct (truthy (outputTranscription message)); [reflexivity|].
    destruct (truthy (inputTranscription message)); reflexivity. }
  unfold handleServerMessage. destruct (inlineAudio message) as [[buffer|e]|].
  - rewrite Hplay, Happly. split; reflexivity.
  - split; reflexivity.
  - rewrite Happly. split; reflexivity.
Qed.

(** C8, as the code has it.  The audio payload of a message does not
    decode in three cases: its text is not base64 ([atob] throws an
    [InvalidCharacterError]), it holds an odd number of bytes (the
    [Int16Array] view throws a [RangeError]), or it holds no byte at all
    ([createBuffer] throws a [NotSupportedError]).  In each of them
    [handleServerMessage] stops there: no source is started, the cursor,
    the refs, the React state, the sessions and the console are as
    before, and the transcription deltas of that message are not
    applied.  The session goes on: the next message on it is played
    and transcribed as if the failed one had not arrived.  Nothing
    catches or logs the failure: it leaves the handler as the rejection
    of a promise that [onmessage] neither awaits nor catches. *)
Theorem decode_failure_rejects
    (c : VoiceInterface) (k : nat) (s : LiveSession)
    (message : LiveServerMessage) (now : Q) (e : exn) :
  sessions (page c) !! k = Some s ->
  readyState s = Open ->
  inlineAudio message = Some (Throw e) ->
  let c' := step c (SessionMessage k message now) in
  (exists payload,
     truthy (inlineData message) = Some payload
     /\ ((base64ToUint8Array payload = Throw e /\ e = InvalidCharacterError)
         \/ (exists bytes, base64ToUint8Array payload = Ok bytes
                           /\ Nat.even (length bytes) = false /\ e = RangeError)
         \/ (base64ToUint8Array payload = Ok [] /\ e = NotSupportedError)))
  /\ uncaught (page c') = uncaught (page c) ++ [e]
  /\ console (page c') = console (page c)
  /\ playback c' = playback c
  /\ sessions (page c') = sessions (page c)
  /\ state c' = state c
  /\ refs c' = refs c
  /\ props c' = props c
  /\ forall message' now',
       playback (step c' (SessionMessage k message' now'))
         = playback (step c (SessionMessage k message' now'))
       /\ state (step c' (SessionMessage k message' now'))
         = state (step c (SessionMessage k message' now')).
Proof.
  intros Hk Hopen Haudio c'. split; [apply inlineAudio_throws, Haudio|].
  assert (Hc' : c' = set_uncaught (uncaught (page c) ++ [e]) c).
  { unfold c'. cbn [step]. rewrite Hk, Hopen.
    unfold handleServerMessage. rewrite Haudio. reflexivity. }
  rewrite Hc'. repeat (split; [reflexivity|]).
  intros message' now'. cbn [step].
  change (sessions (page (set_uncaught (uncaught (page c) ++ [e]) c)))
    with (sessions (page c)).
  rewrite Hk, Hopen. apply handleServerMessage_after_uncaught.
Qed.

Lemma decode_failure_rejects_witness :
  inlineAudio blank_payload = Some (Throw NotSupportedError)
  /\ base64ToUint8Array " " = Ok []
  /\ uncaught (page (step connected_session (SessionMessage 0 blank_payload 0)))
     = uncaught (page connected_session) ++ [NotSupportedError]
  /\ state (step connected_session (SessionMessage 0 blank_payload 0))
     = state connected_session.
Proof.
  destruct (decode_failure_rejects connected_session 0
              {| readyState := Open; cb_ctx := 0; systemMode := Collaborative; sent := [] |}
              blank_payload 0 NotSupportedError)
    as (_ & Hu & _ & _ & _ & Hs & _); [vm_compute; reflexivity .. |].
  split; [vm_compute; reflexivity|]. split; [vm_compute; reflexivity|].
  split; [exact Hu | exact Hs].
Defined.

(** C8, as stated, fails: a payload of three bytes makes
    [decodeAudioData] throw a [RangeError]; the exception leaves the
    handler uncaught, the console receives nothing, and the delta
    ["Hello"] of the same message is lost.  So it goes for a payload
    that is not base64 text and for one without bytes. *)
Lemma decode_failure_escapes :
  let c' := step connected_session (SessionMessage 0 odd_payload 0) in
  base64ToUint8Array "AAAA" = Ok [x00; x00; x00]
  /\ uncaught (page connected_session) = []
  /\ uncaught (page c') = [RangeError]
  /\ console (page c') = console (page connected_session)
  /\ transcript (state c') = None
  /\ uncaught (page (step connected_session (SessionMessage 0 garbled_payload 0)))
     = [InvalidCharacterError]
  /\ uncaught (page (step connected_session (SessionMessage 0 blank_payload 0)))
     = [NotSupportedError].
Proof. cbv zeta. repeat (split; [vm_compute; reflexivity|]). vm_compute; reflexivity. Qed.

(** The handler of a capture node never reads the mute state: it tests
    the constant its closure was created with. *)
Lemma onaudioprocess_ignores_isMuted (b : bool) node inputData c :
  onaudioprocess node inputData (set_isMuted b c) =
  set_isMuted b (onaudioprocess node inputData c).
Proof.
  unfold onaudioprocess. cbn. repeat case_match; reflexivity.
Qed.

(** Neither does the visualizer: the analysis goes on whatever the mute
    state. *)
Lemma renderVisualizer_ignores_isMuted (b : bool) inBins outBins c :
  renderVisualizer inBins outBins (set_isMuted b c) =
  set_isMuted b (renderVisualizer inBins outBins c).
Proof.
  unfold renderVisualizer. cbn. repeat case_match; reflexivity.
Qed.

(** C6 on the code.  In a connected session the user clicks mute; the
    state is muted, yet the next capture frame is encoded and handed to
    the transport, because the handler still tests the [isMuted] of the
    render that started the session. *)
Lemma muted_frame_is_forwarded :
  let muted := step connected_session MuteClick in
  let next := step muted (AudioProcess 0 [Fin 1; Fin (-1)]) in
  isMuted (state muted) = true
  /\ (sent <$> sessions (page muted)) = [[]]
  /\ (sent <$> sessions (page next)) = [[createPcmBlob [Fin 1; Fin (-1)]]]
  /\ data (createPcmBlob [Fin 1; Fin (-1)]) = "/38AgA=="%string.
Proof. cbv zeta. repeat (split; [vm_compute; reflexivity|]). vm_compute; reflexivity. Qed.

Lemma playAudio_state buffer ctx now c :
  state (playAudio buffer ctx now c) = state c.
Proof. unfold playAudio. case_match; reflexivity. Qed.

Lemma applyTranscription_transcript message c :
  transcript (state (applyTranscription message c)) =
  match truthy (outputTranscription message), truthy (inputTranscription message) with
  | Some o, _ => Some (accumulate ai o (transcript (state c)))
  | None, Some i => Some (accumulate user i (transcript (state c)))
  | None, None => transcript (state c)
  end.
Proof.
  unfold applyTranscription, accumulate.
  destruct (truthy (outputTranscription message)) as [o|].
  - destruct (transcript (state c)) as [p|]; [|reflexivity].
    cbn. destruct (decide (source p = ai)); reflexivity.
  - destruct (truthy (inputTranscription message)) as [i|]; [|reflexivity].
    destruct (transcript (state c)) as [p|]; [|reflexivity].
    cbn. destruct (decide (source p = user)); reflexivity.
Qed.

(** C10, as the code has it.  For a message whose audio part, if any,
    decodes (base64 text for a positive, even number of bytes): when the
    output delta is a non-empty text it alone is applied, whatever the
    input delta; the input delta is applied only when there is no output
    text.  The applied delta is appended to the transcript when the
    transcript has the same source, and otherwise (other source, or no
    transcript) becomes the whole text. *)
Theorem output_delta_wins
    (c : VoiceInterface) (message : LiveServerMessage) (ctx : nat) (now : Q) :
  (forall e, inlineAudio message <> Some (Throw e)) ->
  transcript (state (handleServerMessage message ctx now c)) =
  match truthy (outputTranscription message), truthy (inputTranscription message) with
  | Some o, _ => Some (accumulate ai o (transcript (state c)))
  | None, Some i => Some (accumulate user i (transcript (state c)))
  | None, None => transcript (state c)
  end.
Proof.
  intros Hok. unfold handleServerMessage.
  destruct (inlineAudio message) as [[buffer|e]|].
  - rewrite applyTranscription_transcript, playAudio_state. reflexivity.
  - destruct (Hok e). reflexivity.
  - apply applyTranscription_transcript.
Qed.

Lemma output_delta_wins_witness :
  (forall e, inlineAudio both_deltas <> Some (Throw e))
  /\ transcript (state (handleServerMessage both_deltas 0 0
                          (setTranscript (Some {| text := "Oh. "; source := ai |})
                             connected_session)))
     = Some {| text := "Oh. Hello"; source := ai |}
  /\ transcript (state (handleServerMessage both_deltas 0 0
                          (setTranscript (Some {| text := "hm"; source := user |})
                             connected_session)))
     = Some {| text := "Hello"; source := ai |}.
Proof.
  assert (H : forall e, inlineAudio both_deltas <> Some (Throw e))
    by (intros e; vm_compute; discriminate).
  split; [exact H|]. split.
  - rewrite (output_delta_wins _ both_deltas 0 0 H). vm_compute. reflexivity.
  - rewrite (output_delta_wins _ both_deltas 0 0 H). vm_compute. reflexivity.
Defined.

(** C10, as stated, fails: a message with both deltas whose audio
    payload does not decode applies neither of them; the handler has
    thrown before it reads them. *)
Lemma deltas_lost_with_bad_audio :
  let c' := step connected_session (SessionMessage 0 both_deltas_odd_payload 0) in
  truthy (outputTranscription both_deltas_odd_payload) = Some "Hello"%string
  /\ truthy (inputTranscription both_deltas_odd_payload) = Some "hi"%string
  /\ transcript (state connected_session) = None
  /\ transcript (state c') = None
  /\ uncaught (page c') = [RangeError].
Proof. cbv zeta. repeat (split; [vm_compute; reflexivity|]). vm_compute; reflexivity. Qed.

(** C5.  The activity state is [speaking] exactly when the output mean
    exceeds 10, [listening] exactly when it does not and the input mean
    exceeds 10, [idle] otherwise; an output mean of 8 with an input mean
    of 20 gives [listening].  A pass of the visualizer sets the state to
    that function of the two means (and does nothing without a canvas).
    The dominance test (output mean above 5) only selects what is drawn:
    below its own threshold the output mean leaves the state what it
    would be with a silent output, dominant or not. *)
Theorem activity_thresholds (inEnergy outEnergy : number) :
  (activity inEnergy outEnergy = speaking <-> Num.gt outEnergy (Fin 10) = true)
  /\ (activity inEnergy outEnergy = listening <->
      Num.gt outEnergy (Fin 10) = false /\ Num.gt inEnergy (Fin 10) = true)
  /\ (activity inEnergy outEnergy = idle <->
      Num.gt outEnergy (Fin 10) = false /\ Num.gt inEnergy (Fin 10) = false)
  /\ activity (Fin 20) (Fin 8) = listening
  /\ Num.gt (Fin 8) (Fin 5) = true
  /\ (if Num.gt outEnergy (Fin 10) then activity inEnergy outEnergy = speaking
      else activity inEnergy outEnergy = activity inEnergy (Fin 0))
  /\ forall inBins outBins c,
       let inData :=
         match inputAnalyserRef (refs c) with Some _ => inBins | None => [] end in
       let outData :=
         match outputAnalyserRef (refs c) with Some _ => outBins | None => [] end in
       let c' := renderVisualizer inBins outBins c in
       if active (props c)
       then voiceState (state c') = activity (mean inData) (mean outData)
            /\ (isOutputDominant <$> canvas (page c'))
               = Some (Num.gt (mean outData) (Fin 5))
       else c' = c.
Proof.
  assert (Htick : forall inBins outBins c,
             let inData :=
               match inputAnalyserRef (refs c) with Some _ => inBins | None => [] end in
             let outData :=
               match outputAnalyserRef (refs c) with Some _ => outBins | None => [] end in
             let c' := renderVisualizer inBins outBins c in
             if active (props c)
             then voiceState (state c') = activity (mean inData) (mean outData)
                  /\ (isOutputDominant <$> canvas (page c'))
                     = Some (Num.gt (mean outData) (Fin 5))
             else c' = c).
  { intros inBins outBins c. cbv zeta. unfold renderVisualizer.
    destruct (active (props c)); cbn; [split|]; reflexivity. }
  unfold activity.
  destruct (Num.gt outEnergy (Fin 10)) eqn:Eo, (Num.gt inEnergy (Fin 10)) eqn:Ei;
    repeat split; try exact Htick; try discriminate; try reflexivity;
    try (intros [? ?]; discriminate);
    unfold Num.gt, Num.lt; cbn; rewrite ?Ei; reflexivity.
Qed.

(** * Further properties *)

(** ** The codec *)

Section CodecMore.

Import Base64.

#[local] Ltac Zify.zify_post_hook ::= Z.to_euclidean_division_equations.

Lemma encode_length_exact (l : list N) :
  length (encode l) = (4 * ((length l + 2) / 3))%nat.
Proof.
  induction l as [|a|a b|a b c r IH] using list_ind3; try reflexivity.
  cbn [encode length]. rewrite IH.
  replace (S (S (S (length r))) + 2)%nat with ((length r + 2) + 1 * 3)%nat by lia.
  rewrite Nat.div_add by lia. lia.
Qed.

Lemma length_string_of_list_ascii (l : list ascii) :
  String.length (string_of_list_ascii l) = length l.
Proof. induction l as [|c l IH]; cbn; congruence. Qed.

(** Lists taken two elements at a time. *)
Lemma decoded_sample_range (v : Z) :
  -32768 <= v < 32768 ->
  exists q, Num.div (Fin (inject_Z v)) (Fin 32768) = Fin q /\ (-1 <= q < 1)%Q.
Proof.
  intros Hv. eexists. split; [reflexivity|].
  unfold Qle, Qlt, Qdiv, Qmult, Qinv, inject_Z. cbn. lia.
Qed.

Lemma reencode_sample (v : Z) :
  -32768 <= v < 32768 ->
  pcm_sample (Num.div (Fin (inject_Z v)) (Fin 32768)) = reencoded v.
Proof.
  intros Hv.
  change (Num.div (Fin (inject_Z v)) (Fin 32768)) with (Fin (inject_Z v / 32768)).
  unfold pcm_sample. cbv zeta. rewrite clamp_Fin.
  assert (H1 : Num.Qltb (inject_Z v / 32768) 1 = true).
  { apply Qltb_true. unfold Qlt, Qdiv, Qmult, Qinv, inject_Z. cbn. lia. }
  rewrite H1.
  destruct (Num.Qltb (-1) (inject_Z v / 32768)) eqn:H2.
  - apply Qltb_true in H2. cbn [Num.lt].
    destruct (Num.Qltb (inject_Z v / 32768) 0) eqn:H3.
    + apply Qltb_true in H3. unfold Qlt, Qdiv, Qmult, Qinv, inject_Z in H2, H3.
      cbn in H2, H3. cbn [Num.mul Num.ToInt16]. unfold Num.trunc.
      cbn [Qnum Qden Qmult Qdiv Qinv inject_Z].
      unfold reencoded. destruct (Z.ltb_spec 0 v); [lia|].
      rewrite wrap16_small; cbn; Z.quot_rem_to_equations; lia.
    + apply Qltb_false in H3. unfold Qle, Qlt, Qdiv, Qmult, Qinv, inject_Z in H2, H3.
      cbn in H2, H3. cbn [Num.mul Num.ToInt16]. unfold Num.trunc.
      cbn [Qnum Qden Qmult Qdiv Qinv inject_Z].
      unfold reencoded. 
      rewrite wrap16_small; destruct (Z.ltb_spec 0 v); cbn; Z.quot_rem_to_equations; lia.
  - apply Qltb_false in H2. unfold Qle, Qdiv, Qmult, Qinv, inject_Z in H2. cbn in H2.
    assert (v = -32768) by lia. subst v. vm_compute. reflexivity.
Qed.


Lemma floor_monotone (na nb da db : Z) :
  0 < da -> 0 < db -> na * db <= nb * da -> na / da <= nb / db.
Proof.
  intros Ha Hb H. apply Z.div_le_lower_bound; [exact Hb|].
  pose proof (Z.mul_div_le na da Ha) as Hf.
  assert (da * (db * (na / da)) <= da * nb) by nia.
  apply (Z.mul_le_mono_pos_l _ _ da Ha). exact H0.
Qed.

Lemma quot_nonneg (n d : Z) : 0 <= n -> 0 < d -> Z.quot n d = n / d.
Proof. intros Hn Hd. apply Z.quot_div_nonneg; lia. Qed.

Lemma quot_nonpos (n d : Z) : n <= 0 -> 0 < d -> Z.quot n d = - ((- n) / d).
Proof.
  intros Hn Hd. rewrite <- (Z.opp_involutive n) at 1.
  rewrite Z.quot_opp_l by lia. rewrite quot_nonneg by lia. reflexivity.
Qed.

Lemma trunc_monotone (a b : Q) : (a <= b)%Q -> Num.trunc a <= Num.trunc b.
Proof.
  destruct a as [na da], b as [nb db]. unfold Qle, Num.trunc. cbn.
  intros H.
  destruct (Z.le_gt_cases 0 na) as [Ha|Ha].
  - assert (0 <= nb) by nia.
    rewrite !quot_nonneg by lia. apply floor_monotone; lia.
  - destruct (Z.le_gt_cases 0 nb) as [Hb|Hb].
    + rewrite (quot_nonpos na) by lia. rewrite (quot_nonneg nb) by lia.
      pose proof (Z.div_pos (- na) (Z.pos da) ltac:(lia) ltac:(lia)).
      pose proof (Z.div_pos nb (Z.pos db) ltac:(lia) ltac:(lia)). lia.
    + rewrite !quot_nonpos by lia.
      apply Z.opp_le_mono. rewrite !Z.opp_involutive.
      apply floor_monotone; lia.
Qed.

Lemma trunc_sign (a : Q) :
  ((a <= 0)%Q -> Num.trunc a <= 0) /\ ((0 <= a)%Q -> 0 <= Num.trunc a).
Proof.
  destruct a as [na da]. unfold Qle, Num.trunc. cbn.
  split; intros H; Z.quot_rem_to_equations; nia.
Qed.

(** The sample written for a finite float, without the conversion's
    wrap-around, which never applies. *)
Lemma pcm_sample_Fin (q : Q) :
  exists c, clamp (Fin q) = Fin c /\ (-1 <= c <= 1)%Q
    /\ pcm_sample (Fin q) =
       Num.trunc (if Num.Qltb c 0 then c * 32768 else c * 32767)%Q.
Proof.
  destruct (clamp_Fin_range q) as [c [E Hc]]. exists c.
  split; [exact E|]. split; [exact Hc|].
  unfold pcm_sample. cbv zeta. rewrite E. cbn [Num.lt].
  destruct Hc as [Hlo Hhi]. destruct c as [n d].
  unfold Qle in Hlo, Hhi. cbn in Hlo, Hhi.
  destruct (Num.Qltb (n # d) 0) eqn:E0; cbn [Num.mul Num.ToInt16];
    apply wrap16_small; unfold Num.trunc; cbn [Qnum Qden Qmult];
    [apply Qltb_true in E0 | apply Qltb_false in E0];
    unfold Qlt, Qle in E0; cbn in E0; Z.quot_rem_to_equations; nia.
Qed.

Lemma clamp_monotone (p q : Q) (cp cq : Q) :
  (p <= q)%Q -> clamp (Fin p) = Fin cp -> clamp (Fin q) = Fin cq -> (cp <= cq)%Q.
Proof.
  intros H. rewrite !clamp_Fin. intros Ep Eq.
  injection Ep as <-. injection Eq as <-.
  destruct (Num.Qltb p 1) eqn:P1, (Num.Qltb q 1) eqn:Q1;
    [destruct (Num.Qltb (-1) p) eqn:P2, (Num.Qltb (-1) q) eqn:Q2 |
     destruct (Num.Qltb (-1) p) eqn:P2 | destruct (Num.Qltb (-1) q) eqn:Q2 | ];
    repeat match goal with
           | E : Num.Qltb _ _ = true |- _ => apply Qltb_true in E
           | E : Num.Qltb _ _ = false |- _ => apply Qltb_false in E
           end;
    try exact H; try apply Qle_refl; try discriminate.
  - exfalso. apply (Qlt_irrefl (-1)). eapply Qlt_le_trans; [exact P2|].
    eapply Qle_trans; [exact H | exact Q2].
  - apply Qlt_le_weak, Q2.
  - apply Qlt_le_weak, P1.
  - exfalso. apply (Qlt_irrefl q). eapply Qlt_le_trans; [exact Q1|].
    eapply Qle_trans; [exact P1 | exact H].
  - exfalso. apply (Qlt_irrefl q). eapply Qlt_le_trans; [exact Q1|].
    eapply Qle_trans; [exact P1 | exact H].
Qed.

End CodecMore.

(** X1.  The text encoding of the transport loses nothing: for every
    byte array, [base64ToUint8Array] of [uint8ArrayToBase64] returns the
    bytes, and the text has four characters for every three bytes,
    rounded up. *)
Theorem transport_text_roundtrip (bytes : Uint8Array) :
  base64ToUint8Array (uint8ArrayToBase64 bytes) = Ok bytes
  /\ String.length (uint8ArrayToBase64 bytes) = (4 * ((length bytes + 2) / 3))%nat.
Proof.
  split; [apply base64_roundtrip|].
  unfold uint8ArrayToBase64, Base64.btoa.
  rewrite length_string_of_list_ascii, encode_length_exact.
  rewrite list_ascii_of_string_of_list_ascii, !length_map. reflexivity.
Qed.

(** X2.  [decodeAudioData] throws a [NotSupportedError] for no byte at
    all and a [RangeError] for an odd number of bytes.  In every other
    case it returns a mono buffer at 24 kHz with one sample for every
    two bytes, each a finite number in [-1, 1), and a positive duration:
    the double nearest to one second per 48000 bytes. *)
Theorem decodeAudioData_shape (d : Uint8Array) :
  match d with
  | [] => decodeAudioData d = Throw NotSupportedError
  | _ :: _ =>
      if Nat.even (length d)
      then exists b,
          decodeAudioData d = Ok b
          /\ numberOfChannels b = 1%nat
          /\ sampleRate b = 24000%positive
          /\ (2 * length (channelData b))%nat = length d
          /\ Forall (fun x => exists q, x = Fin q /\ (-1 <= q < 1)%Q) (channelData b)
          /\ duration b = double (Z.of_nat (length d) # 48000)
          /\ (0 < duration b)%Q
      else decodeAudioData d = Throw RangeError
  end.
Proof.
  destruct d as [|x d']; [reflexivity|]. set (d := x :: d').
  destruct (Nat.even (length d)) eqn:E; [|apply decodeAudioData_odd, E].
  pose proof (int16_view_parity (length d) d (le_n _)) as P. rewrite E in P.
  destruct P as [a Ha]. destruct (int16_view_shape d a Ha) as [Hl Hr].
  assert (Hne : a <> []) by (intros ->; discriminate Hl).
  unfold decodeAudioData. rewrite Ha. cbv zeta.
  destruct a as [|v a']; [congruence|]. set (a := v :: a') in *.
  cbn [map]. eexists. split; [reflexivity|].
  change (Num.div (Fin (inject_Z v)) (Fin 32768)
            :: map (fun v => Num.div (Fin (inject_Z v)) (Fin 32768)) a')
    with (map (fun v => Num.div (Fin (inject_Z v)) (Fin 32768)) a).
  cbn [numberOfChannels sampleRate channelData]. rewrite length_map.
  split; [reflexivity|]. split; [reflexivity|]. split; [lia|]. split; [|split].
  - apply Forall_map. eapply Forall_impl; [exact Hr|].
    intros w Hw. apply decoded_sample_range, Hw.
  - unfold duration. cbn [channelData sampleRate]. rewrite length_map.
    apply double_comp. unfold Qeq. cbn [Qnum Qden]. lia.
  - unfold duration. cbn [channelData sampleRate]. rewrite length_map.
    apply Qlt_le_trans with (double (1 # 24000)); [vm_compute; reflexivity|].
    apply double_monotone. unfold Qle. cbn [Qnum Qden].
    assert (1 <= length a)%nat by (subst a; cbn; lia). lia.
Qed.

(** X3.  Encoding keeps the order of samples: for finite floats
    [p <= q] the 16-bit value written for [p] is at most the one written
    for [q], and both lie in the 16-bit range. *)
Theorem pcm_sample_monotone (p q : Q) :
  (p <= q)%Q ->
  -32768 <= pcm_sample (Fin p) <= pcm_sample (Fin q) /\ pcm_sample (Fin q) <= 32767.
Proof.
  intros H.
  pose proof (pcm_sample_range (Fin p)) as Rp.
  pose proof (pcm_sample_range (Fin q)) as Rq.
  split; [split; [lia|] | lia].
  destruct (pcm_sample_Fin p) as (cp & Ep & _ & ->).
  destruct (pcm_sample_Fin q) as (cq & Eq & _ & ->).
  pose proof (clamp_monotone p q cp cq H Ep Eq) as Hc.
  destruct (Num.Qltb cp 0) eqn:Sp, (Num.Qltb cq 0) eqn:Sq;
    repeat match goal with
           | E : Num.Qltb _ _ = true |- _ => apply Qltb_true in E
           | E : Num.Qltb _ _ = false |- _ => apply Qltb_false in E
           end.
  - apply trunc_monotone. apply Qmult_le_compat_r; [exact Hc | discriminate].
  - apply Z.le_trans with 0.
    + apply trunc_sign. rewrite <- (Qmult_0_l 32768).
      apply Qmult_le_compat_r; [apply Qlt_le_weak, Sp | discriminate].
    + apply trunc_sign. rewrite <- (Qmult_0_l 32767).
      apply Qmult_le_compat_r; [exact Sq | discriminate].
  - exfalso. apply (Qlt_irrefl 0). eapply Qle_lt_trans; [exact Sp|].
    eapply Qle_lt_trans; [exact Hc | exact Sq].
  - apply trunc_monotone. apply Qmult_le_compat_r; [exact Hc | discriminate].
Qed.

Lemma pcm_sample_monotone_witness :
  (-1 # 2 <= 1 # 3)%Q
  /\ pcm_sample (Fin (-1 # 2)) = -16384
  /\ pcm_sample (Fin (1 # 3)) = 10922
  /\ pcm_sample (Fin (-1 # 2)) <= pcm_sample (Fin (1 # 3)).
Proof.
  assert (H : (-1 # 2 <= 1 # 3)%Q) by (unfold Qle; cbn; lia).
  split; [exact H|]. split; [vm_compute; reflexivity|].
  split; [vm_compute; reflexivity|].
  apply (pcm_sample_monotone (-1 # 2) (1 # 3) H).
Defined.

(** X4.  Full scale is written exactly for clipped samples: the value
    is 32767 if and only if the float is at least 1, and -32768 if and
    only if it is at most -1. *)
Theorem pcm_sample_saturates (q : Q) :
  (pcm_sample (Fin q) = 32767 <-> (1 <= q)%Q)
  /\ (pcm_sample (Fin q) = -32768 <-> (q <= -1)%Q).
Proof.
  destruct (pcm_sample_Fin q) as (c & Ec & [Hlo Hhi] & ->).
  rewrite clamp_Fin in Ec.
  assert (Ec' := f_equal (fun x => match x with Fin y => y | _ => 0%Q end) Ec).
  cbv beta iota in Ec'. clear Ec. symmetry in Ec'.
  assert (Hq : ((1 <= q)%Q <-> (1 <= c)%Q) /\ ((q <= -1)%Q <-> (c <= -1)%Q)).
  { rewrite Ec'. clear Ec' Hlo Hhi c. destruct q as [n d].
    destruct (Num.Qltb (n # d) 1) eqn:E1;
      [apply Qltb_true in E1 | apply Qltb_false in E1];
      [destruct (Num.Qltb (-1) (n # d)) eqn:E2;
       [apply Qltb_true in E2 | apply Qltb_false in E2] |];
      unfold Qle, Qlt in *; cbn [Qnum Qden] in *; lia. }
  destruct Hq as [Hq1 Hq2].
  rewrite Hq1, Hq2. clear Hq1 Hq2 Ec' q.
  destruct c as [n d]. unfold Qle in *. cbn in Hlo, Hhi |- *.
  destruct (Num.Qltb (n # d) 0) eqn:E0;
    [apply Qltb_true in E0 | apply Qltb_false in E0];
    unfold Qlt, Qle in E0; cbn in E0;
    unfold Num.trunc; cbn [Qnum Qden Qmult];
    split; split; intros H; revert H; Z.quot_rem_to_equations; nia.
Qed.

(** X5.  Encoding what [decodeAudioData] returned does not give the
    samples back: for every byte array of a positive, even size, each
    sample that is zero or negative is written again as it was, and
    each positive sample one below. *)
Theorem reencode_decoded (d : Uint8Array) (a : Int16Array) :
  int16_view d = Ok a ->
  d <> [] ->
  exists b, decodeAudioData d = Ok b /\ pcm_int16 (channelData b) = map reencoded a.
Proof.
  intros Ha Hd. destruct (int16_view_shape d a Ha) as [Hl Hr].
  unfold decodeAudioData. rewrite Ha. cbv zeta.
  destruct (map (fun v => Num.div (Fin (inject_Z v)) (Fin 32768)) a) as [|y ys] eqn:M.
  { destruct a; [|discriminate M]. destruct d; [congruence | discriminate Hl]. }
  rewrite <- M. eexists. split; [reflexivity|].
  cbn [channelData]. unfold pcm_int16. rewrite map_map. clear Ha Hl M Hd.
  induction Hr as [|v r Hv _ IH]; [reflexivity|].
  cbn [map]. rewrite (reencode_sample v Hv), IH. reflexivity.
Qed.

Lemma reencode_decoded_witness :
  int16_view (pcm_bytes [Fin 1; Fin (-1); Fin 0; Fin (1 # 2)]) = Ok [32767; -32768; 0; 16383]
  /\ exists b,
       decodeAudioData (pcm_bytes [Fin 1; Fin (-1); Fin 0; Fin (1 # 2)]) = Ok b
       /\ pcm_int16 (channelData b) = [32766; -32768; 0; 16382].
Proof.
  assert (H : int16_view (pcm_bytes [Fin 1; Fin (-1); Fin 0; Fin (1 # 2)])
              = Ok [32767; -32768; 0; 16383]) by (vm_compute; reflexivity).
  split; [exact H|].
  apply (reencode_decoded _ _ H). vm_compute. discriminate.
Defined.

(** ** The visualizer *)

Section VisualizerMore.

Lemma Z_of_byte_range (b : byte) : 0 <= Z_of_byte b <= 255.
Proof. unfold Z_of_byte. pose proof (Byte.to_N_bounded b). lia. Qed.

Lemma sum_bytes_bounds (d : Uint8Array) (acc : Z) :
  acc <= fold_left (fun a b => a + Z_of_byte b) d acc <= acc + 255 * Z.of_nat (length d).
Proof.
  revert acc. induction d as [|b d IH]; intros acc; cbn [fold_left length]; [lia|].
  pose proof (Z_of_byte_range b). specialize (IH (acc + Z_of_byte b)). lia.
Qed.

Lemma barStep_ge (data : Uint8Array) :
  (barCount <= length data)%nat -> (1 <= barStep data)%nat.
Proof.
  intros H. unfold barStep. apply Nat.div_le_lower_bound; unfold barCount in *; lia.
Qed.

Lemma div_by_positive (s n : Z) :
  0 < n ->
  Num.div (Fin (inject_Z s)) (Fin (inject_Z n)) = Fin (inject_Z s / inject_Z n).
Proof.
  intros Hn. unfold Num.div.
  destruct (Qeq_bool (inject_Z n) 0) eqn:E; [|reflexivity].
  apply Qeq_bool_iff in E. unfold Qeq, inject_Z in E. cbn in E. lia.
Qed.

End VisualizerMore.

(** X6.  The mean energy of a non-empty frequency array is a finite
    number between 0 and 255; of the empty array (no analyser yet) it is
    [NaN], which no threshold test accepts, so the activity is idle. *)
Theorem mean_bounds (d : Uint8Array) :
  match d with
  | [] => mean d = NaN /\ activity (mean d) (mean d) = idle
  | _ :: _ => exists q, mean d = Fin q /\ (0 <= q <= 255)%Q
  end.
Proof.
  destruct d as [|b r]; [split; reflexivity|].
  unfold mean. set (d := b :: r).
  pose proof (sum_bytes_bounds d 0) as Hs.
  assert (Hlen : 0 < Z.of_nat (length d)) by (cbn [d length]; lia).
  rewrite (div_by_positive _ _ Hlen). eexists. split; [reflexivity|].
  generalize dependent (fold_left (fun a b => a + Z_of_byte b) d 0).
  generalize dependent (Z.of_nat (length d)). clear. intros [|n|n] Hn s Hs; try lia.
  unfold Qle, Qdiv, Qmult, Qinv, inject_Z. cbn. rewrite ?Pos.mul_1_l. lia.
Qed.

(** X7.  With at least [barCount] bins (the analysers give 256) every
    one of the 64 bars reads a bin inside the array, so no bar is
    undefined, and each bar's share of full scale lies between 0 and 1.
    With fewer bins the step is zero and all bars read the first bin
    ([undefined] for the empty array). *)
Theorem bars_read_in_range (data : Uint8Array) :
  length (bars data) = barCount
  /\ if (barCount <=? length data)%nat
     then Forall (fun v => exists b q, v = Some b /\ barPercent v = Fin q /\ (0 <= q <= 1)%Q)
            (bars data)
     else bars data = repeat (head data) barCount.
Proof.
  split; [unfold bars; rewrite length_map, length_seq; reflexivity|].
  destruct (Nat.leb_spec barCount (length data)) as [H|H].
  - unfold bars. apply Forall_forall. intros v Hv.
    apply list_elem_of_In, in_map_iff in Hv as (i & <- & Hi). apply in_seq in Hi.
    pose proof (barStep_ge data H) as Hstep.
    assert (Hin : (i * barStep data < length data)%nat).
    { pose proof (Nat.Div0.mul_div_le (length data) barCount) as Hm.
      fold (barStep data) in Hm. unfold barCount in *. nia. }
    unfold barValue.
    destruct (data !! (i * barStep data)%nat) as [b|] eqn:Hb;
      [|apply lookup_ge_None in Hb; lia].
    exists b. eexists. split; [reflexivity|].
    unfold barPercent. rewrite (div_by_positive _ 255) by lia.
    split; [reflexivity|].
    pose proof (Z_of_byte_range b).
    unfold Qle, Qdiv, Qmult, Qinv, inject_Z. cbn. lia.
  - unfold bars, barValue.
    assert (Hstep : barStep data = 0%nat).
    { unfold barStep. apply Nat.div_small. exact H. }
    rewrite Hstep. unfold barCount.
    change (repeat (head data) 64) with (map (fun _ : nat => head data) (seq 0 64)).
    apply map_ext. intros i. rewrite Nat.mul_0_r. destruct data; reflexivity.
Qed.

(** ** Reachable states *)

Section Reachable.

Lemma run_invariant (P : VoiceInterface -> Prop) :
  (forall c e, P c -> P (step c e)) ->
  forall es c, P c -> P (run c es).
Proof.
  intros Hstep es. induction es as [|e es IH]; intros c Hc; [exact Hc|].
  apply (IH (step c e)), Hstep, Hc.
Qed.

Lemma run_app c es1 es2 : run c (es1 ++ es2) = run (run c es1) es2.
Proof. unfold run. apply fold_left_app. Qed.

(** *** The activity indicator *)

Ltac open_record c := destruct c as [[] [] [] []].

Ltac by_cases := cbn; repeat (case_match; cbn); try reflexivity.

Lemma stopSession_idle c : voiceState (state (stopSession c)) = idle.
Proof.
  destruct c as [pr st [a i s cur srcs se af ia oa tt] pg].
  unfold stopSession. cbn.
  destruct (af =? 0)%nat, s, i, a; reflexivity.
Qed.

Lemma renderVisualizer_closed inBins outBins c :
  active (props c) = false -> renderVisualizer inBins outBins c = c.
Proof. intros H. unfold renderVisualizer. rewrite H. reflexivity. Qed.

Lemma renderVisualizer_props inBins outBins c :
  props (renderVisualizer inBins outBins c) = props c.
Proof. unfold renderVisualizer. case_match; reflexivity. Qed.

Lemma handleServerMessage_shown message ctx now c :
  props (handleServerMessage message ctx now c) = props c
  /\ voiceState (state (handleServerMessage message ctx now c)) = voiceState (state c).
Proof.
  unfold handleServerMessage, applyTranscription, playAudio, setTranscript.
  open_record c. by_cases; split; reflexivity.
Qed.


Lemma idle_when_closed_same c c' :
  props c' = props c -> voiceState (state c') = voiceState (state c) ->
  idle_when_closed c -> idle_when_closed c'.
Proof. unfold idle_when_closed. intros -> ->. exact id. Qed.

Lemma renderVisualizer_idle_when_closed inBins outBins c :
  idle_when_closed c -> idle_when_closed (renderVisualizer inBins outBins c).
Proof.
  intros H. destruct (active (props c)) eqn:E.
  - left. rewrite renderVisualizer_props. exact E.
  - rewrite renderVisualizer_closed by exact E. exact H.
Qed.

Lemma connectSession_idle_when_closed p c :
  idle_when_closed c -> idle_when_closed (connectSession p c).
Proof. apply idle_when_closed_same; reflexivity. Qed.

Lemma inputSetup_idle_when_closed p c :
  idle_when_closed c -> idle_when_closed (inputSetup p c).
Proof. apply idle_when_closed_same; reflexivity. Qed.

Lemma set_pending_idle_when_closed l c :
  idle_when_closed c -> idle_when_closed (set_pending l c).
Proof. apply idle_when_closed_same; reflexivity. Qed.

Lemma step_idle_when_closed c e : idle_when_closed c -> idle_when_closed (step c e).
Proof.
  intros H. destruct e; cbn [step].
  - destruct (render_cases true m c) as [-> | [-> | ->]]; [exact H | left; reflexivity |].
    right. apply stopSession_idle.
  - destruct (render_cases false (mode (props c)) c) as [-> | [-> | ->]];
      [exact H | left; reflexivity |].
    right. apply stopSession_idle.
  - case_match; [|exact H]. revert H. apply idle_when_closed_same; reflexivity.
  - case_match; [|exact H]. unfold resumeStart. destruct granted.
    + apply connectSession_idle_when_closed, renderVisualizer_idle_when_closed,
        inputSetup_idle_when_closed, set_pending_idle_when_closed, H.
    + apply (set_pending_idle_when_closed (delete i (pending (page c)))) in H.
      revert H. apply idle_when_closed_same; reflexivity.
  - unfold onaudioprocess. repeat case_match; try exact H;
      revert H; apply idle_when_closed_same; reflexivity.
  - repeat case_match; try exact H; revert H; apply idle_when_closed_same; reflexivity.
  - destruct (sessions (page c) !! k) as [s|]; [|exact H].
    destruct (readyState s); try exact H.
    revert H. apply idle_when_closed_same; apply handleServerMessage_shown.
  - repeat case_match; try exact H; revert H; apply idle_when_closed_same; reflexivity.
  - repeat case_match; try exact H; revert H; apply idle_when_closed_same; reflexivity.
  - unfold sourceEnded. case_match; [|exact H].
    revert H. apply idle_when_closed_same; reflexivity.
  - case_decide; [|exact H]. apply renderVisualizer_idle_when_closed.
    revert H. apply idle_when_closed_same; reflexivity.
  - unfold transcriptTimeout. case_match; [|exact H].
    revert H. apply idle_when_closed_same; reflexivity.
Qed.

End Reachable.

(** X8.  Whatever happens after mount, the activity indicator reads
    idle whenever the overlay is closed: only a pass of the visualizer
    with a canvas sets it to anything else, and closing resets it. *)
Theorem closed_overlay_is_idle (es : list event) :
  active (props (run mount es)) = true \/ voiceState (state (run mount es)) = idle.
Proof.
  apply (run_invariant idle_when_closed step_idle_when_closed es mount).
  right. reflexivity.
Qed.

(** ** The playback state along a run *)

Section PlaybackAlong.

(** What one event does to the playback state: nothing, one call of
    [playAudio], or the removal of an ended source from the active
    set. *)
Lemma step_playback_cases c e :
  playback (step c e) = playback c
  \/ (exists buffer ctx now, playback (step c e) = playback (playAudio buffer ctx now c))
  \/ (exists i, (i < length (sources (page c)))%nat
        /\ playback (step c e)
           = (nextStartTimeRef (refs c), sourcesRef (refs c) ∖ {[i]}, sources (page c))).
Proof.
  pose proof (step_playback c e) as Hframe.
  destruct e; try (left; exact Hframe); cbn [step].
  - destruct (sessions (page c) !! k) as [s|]; [|left; reflexivity].
    destruct (readyState s); try (left; reflexivity).
    unfold handleServerMessage.
    destruct (inlineAudio message) as [[buffer|e]|].
    + right. left. exists buffer, (cb_ctx s), now. apply applyTranscription_playback.
    + left. reflexivity.
    + left. apply applyTranscription_playback.
  - unfold sourceEnded.
    destruct (Nat.ltb_spec src (length (sources (page c)))) as [H|H]; [|left; reflexivity].
    right. right. exists src. split; [exact H | reflexivity].
Qed.

Lemma playback_playAudio buffer ctx now c :
  playback (playAudio buffer ctx now c) =
  let start :=
    if Num.Qltb (nextStartTimeRef (refs c)) (double now) then double now
    else nextStartTimeRef (refs c) in
  (double (start + duration buffer),
   {[length (sources (page c))]} ∪ sourcesRef (refs c),
   sources (page c) ++ [{| src_ctx := ctx; src_buffer := buffer; src_start := start |}]).
Proof.
  unfold playback.
  rewrite playAudio_cursor, playAudio_sourcesRef, playAudio_sources. reflexivity.
Qed.

Lemma log_ok_playAudio buffer ctx now c :
  log_ok (playback c) -> log_ok (playback (playAudio buffer ctx now c)).
Proof.
  rewrite playback_playAudio. unfold log_ok, playback. cbn [fst snd].
  intros (Hno & Hcov & Hsub).
  set (start := if Num.Qltb (nextStartTimeRef (refs c)) (double now) then double now
                else nextStartTimeRef (refs c)).
  set (x := {| src_ctx := ctx; src_buffer := buffer; src_start := start |}).
  split; [|split].
  - intros i a b Ha Hb.
    destruct (Nat.lt_ge_cases (S i) (length (sources (page c)))) as [Hi|Hi].
    + rewrite lookup_app_l in Ha by lia. rewrite lookup_app_l in Hb by lia.
      exact (Hno i a b Ha Hb).
    + assert (Hlen : S i = length (sources (page c))).
      { apply lookup_lt_Some in Hb. rewrite length_app in Hb. cbn in Hb. lia. }
      rewrite lookup_app_l in Ha by lia.
      rewrite lookup_app_r in Hb by lia.
      replace (S i - length (sources (page c)))%nat with 0%nat in Hb by lia.
      injection Hb as <-.
      assert (Hlast : last (sources (page c)) = Some a).
      { rewrite last_lookup. rewrite <- Hlen. exact Ha. }
      assert (Hend : (source_end a <= src_start x)%Q).
      { apply Qle_trans with (nextStartTimeRef (refs c)); [exact (Hcov a Hlast)|].
        apply start_after_cursor. }
      split; [exact Hend|].
      eapply Qle_trans; [|exact Hend]. apply rounding_bound.
  - intros s Hs. rewrite last_snoc in Hs. injection Hs as <-.
    unfold source_end. cbn [src_start src_buffer x]. apply Qle_refl.
  - rewrite length_app. cbn [length].
    intros j Hj. apply elem_of_set_seq.
    apply elem_of_union in Hj as [Hj|Hj].
    + apply elem_of_singleton in Hj. lia.
    + apply Hsub, elem_of_set_seq in Hj. lia.
Qed.

Lemma step_log_ok c e : log_ok (playback c) -> log_ok (playback (step c e)).
Proof.
  intros H.
  destruct (step_playback_cases c e) as [-> | [(buffer & ctx & now & ->) | (i & Hi & ->)]].
  - exact H.
  - apply log_ok_playAudio, H.
  - destruct H as (Hno & Hcov & Hsub). unfold log_ok, playback in *. cbn [fst snd] in *.
    split; [exact Hno|]. split; [exact Hcov|].
    intros j Hj. apply Hsub. apply elem_of_difference in Hj. tauto.
Qed.

Lemma reachable_log_ok (es : list event) : log_ok (playback (run mount es)).
Proof.
  apply (run_invariant (fun c => log_ok (playback c)) step_log_ok).
  split; [|split].
  - intros i a b Ha. discriminate.
  - intros s Hs. discriminate.
  - intros j Hj. apply not_elem_of_empty in Hj. contradiction.
Qed.

(** A source that is out of the active set stays out: later sources get
    later indices. *)
Lemma step_stays_out (i : nat) c e :
  (i < length (sources (page c)))%nat /\ i ∉ sourcesRef (refs c) ->
  (i < length (sources (page (step c e))))%nat /\ i ∉ sourcesRef (refs (step c e)).
Proof.
  intros [Hi Hout].
  assert (Hview : forall c', playback c' = playback c ->
            (i < length (sources (page c')))%nat /\ i ∉ sourcesRef (refs c')).
  { unfold playback. intros c' E. injection E as _ -> ->. split; assumption. }
  destruct (step_playback_cases c e) as [E | [(buffer & ctx & now & E) | (j & Hj & E)]].
  - apply Hview, E.
  - rewrite playback_playAudio in E. unfold playback in E. cbv zeta in E.
    injection E as _ -> ->. rewrite length_app. cbn [length]. split; [lia|].
    intros Hin. apply elem_of_union in Hin as [Hin|Hin]; [|contradiction].
    apply elem_of_singleton in Hin. lia.
  - unfold playback in E. injection E as _ -> ->. split; [exact Hi|].
    intros Hin. apply elem_of_difference in Hin. tauto.
Qed.

End PlaybackAlong.

(** X9.  In every state reached from mount, across sessions, stops and
    restarts: no started source begins before the end that the
    scheduler computed for the source started just before it (the
    double that the addition gives for its start plus its duration),
    and the cursor stands at or after that end for the source started
    last.  Measured exactly, a source begins before the end of the
    previous one by no more than the rounding of that end. *)
Theorem sources_never_overlap (es : list event) :
  never_overlap (sources (page (run mount es))) /\ cursor_covers (run mount es).
Proof.
  destruct (reachable_log_ok es) as (Hno & Hcov & _).
  split; [exact Hno | exact Hcov].
Qed.

(** X10.  In every state reached from mount the set of active sources
    holds only sources that were started. *)
Theorem active_sources_were_started (es : list event) :
  sourcesRef (refs (run mount es)) ⊆ set_seq 0 (length (sources (page (run mount es)))).
Proof.
  destruct (reachable_log_ok es) as (_ & _ & Hsub). exact Hsub.
Qed.

(** X11.  Once a started source has ended it is out of the active set
    for good: whatever events follow, further chunks included, it is
    never put back. *)
Theorem ended_source_stays_out (c : VoiceInterface) (i : nat) (es : list event) :
  (i < length (sources (page c)))%nat ->
  i ∉ sourcesRef (refs (run (step c (SourceEnded i)) es)).
Proof.
  intros Hi.
  apply (run_invariant
           (fun c => (i < length (sources (page c)))%nat /\ i ∉ sourcesRef (refs c))
           (step_stays_out i) es).
  cbn [step]. unfold sourceEnded.
  destruct (Nat.ltb_spec i (length (sources (page c)))) as [_|H]; [|lia].
  split; [exact Hi|].
  change (i ∉ sourcesRef (refs c) ∖ {[i]}).
  intros Hin. apply elem_of_difference in Hin as [_ Hin].
  apply Hin, elem_of_singleton. reflexivity.
Qed.

Lemma ended_source_stays_out_witness :
  (0 < length (sources (page talking_session)))%nat
  /\ 0%nat ∈ sourcesRef (refs talking_session)
  /\ 0%nat ∉ sourcesRef
        (refs (run (step talking_session (SourceEnded 0))
                 [SessionMessage 0 silence 1; CloseClick; SessionMessage 0 silence 3])).
Proof.
  assert (H : (0 < length (sources (page talking_session)))%nat)
    by (vm_compute; lia).
  split; [exact H|]. split.
  - apply elem_of_elements. vm_compute. left.
  - apply (ended_source_stays_out talking_session 0 _ H).
Defined.

(** ** Stopping *)

Section Stopping.

Lemma filter_twice {A : Type} (P : A -> Prop) `{forall x, Decision (P x)} (l : list A) :
  filter P (filter P l) = filter P l.
Proof.
  induction l as [|x l IH]; [reflexivity|].
  destruct (decide (P x)) as [Hx|Hx].
  - rewrite (filter_cons_True P x l Hx), (filter_cons_True P x _ Hx), IH. reflexivity.
  - rewrite (filter_cons_False P x l Hx). exact IH.
Qed.

(** [stopSession] in one piece. *)
Lemma stopSession_eq (c : VoiceInterface) :
  stopSession c =
  {| props := props c;
     state := {| status := connecting; isMuted := isMuted (state c);
                 voiceState := idle; transcript := None |};
     refs := {| audioContextRef := None; inputNodeRef := None; streamRef := None;
                nextStartTimeRef := nextStartTimeRef (refs c);
                sourcesRef := sourcesRef (refs c); sessionRef := None;
                animationFrameRef := animationFrameRef (refs c);
                inputAnalyserRef := inputAnalyserRef (refs c);
                outputAnalyserRef := outputAnalyserRef (refs c);
                transcriptTimeoutRef := false |};
     page := {| contexts := match audioContextRef (refs c) with
                            | Some a => <[a := true]> (contexts (page c))
                            | None => contexts (page c)
                            end;
                streams := match streamRef (refs c) with
                           | Some s => <[s := true]> (streams (page c))
                           | None => streams (page c)
                           end;
                processors :=
                  match inputNodeRef (refs c) with
                  | Some n =>
                      alter (fun p => {| sp_connected := false; sp_isMuted := sp_isMuted p |})
                        n (processors (page c))
                  | None => processors (page c)
                  end;
                sessions := sessions (page c);
                sources := sources (page c);
                frames := if (animationFrameRef (refs c) =? 0)%nat then frames (page c)
                          else filter (fun i => i ≠ animationFrameRef (refs c))
                                 (frames (page c));
                frameCount := frameCount (page c);
                pending := pending (page c);
                console := console (page c);
                uncaught := uncaught (page c);
                canvas := canvas (page c) |} |}.
Proof.
  destruct c as [pr [st mu vs tr] [a i s cur srcs se af ia oa tt]
                 [ctxs strs procs sess srs frs fc pend cons unc cv]].
  unfold stopSession. cbn.
  destruct (af =? 0)%nat, s, i, a; reflexivity.
Qed.

End Stopping.

(** X12.  Stopping is idempotent: a second [stopSession] right after the
    first changes nothing, as every release is guarded by its ref. *)
Theorem stopSession_idempotent (c : VoiceInterface) :
  stopSession (stopSession c) = stopSession c.
Proof.
  rewrite (stopSession_eq (stopSession c)), (stopSession_eq c).
  cbn [props state refs page isMuted nextStartTimeRef sourcesRef animationFrameRef
       inputAnalyserRef outputAnalyserRef audioContextRef streamRef inputNodeRef
       contexts streams processors sessions sources frames frameCount pending
       console uncaught canvas].
  destruct (animationFrameRef (refs c) =? 0)%nat; [reflexivity|].
  rewrite filter_twice. reflexivity.
Qed.

(** ** The transcript and its timer *)

Section Subtitle.

Lemma renderVisualizer_subtitle inBins outBins c :
  subtitle (renderVisualizer inBins outBins c) = subtitle c.
Proof. unfold renderVisualizer. case_match; reflexivity. Qed.

Lemma playAudio_subtitle buffer ctx now c :
  subtitle (playAudio buffer ctx now c) = subtitle c.
Proof. unfold playAudio. case_match; reflexivity. Qed.

Lemma stopSession_subtitle c : subtitle (stopSession c) = (None, false).
Proof. rewrite stopSession_eq. reflexivity. Qed.

Lemma startSession_subtitle c : subtitle (startSession c) = subtitle c.
Proof. reflexivity. Qed.

Lemma with_props_subtitle f c : subtitle (with_props f c) = subtitle c.
Proof. reflexivity. Qed.

Lemma inputSetup_subtitle p c : subtitle (inputSetup p c) = subtitle c.
Proof. reflexivity. Qed.

Lemma connectSession_subtitle p c : subtitle (connectSession p c) = subtitle c.
Proof. reflexivity. Qed.

Lemma applyTranscription_subtitle message c :
  subtitle (applyTranscription message c) = subtitle c
  \/ exists t, subtitle (applyTranscription message c) = (Some t, true).
Proof.
  unfold applyTranscription.
  destruct (truthy (outputTranscription message)) as [o|].
  - right. eexists. reflexivity.
  - destruct (truthy (inputTranscription message)) as [i|].
    + right. eexists. reflexivity.
    + left. reflexivity.
Qed.

(** What one event does to the transcript and its timer: nothing, both
    cleared, or a transcript set with the timer started. *)
Lemma step_subtitle_cases c e :
  subtitle (step c e) = subtitle c
  \/ subtitle (step c e) = (None, false)
  \/ exists t, subtitle (step c e) = (Some t, true).
Proof.
  destruct e; cbn [step].
  - destruct (render_cases true m c) as [-> | [-> | ->]]; [left; reflexivity | |];
      right; left.
    + rewrite startSession_subtitle, with_props_subtitle. apply stopSession_subtitle.
    + apply stopSession_subtitle.
  - destruct (render_cases false (mode (props c)) c) as [-> | [-> | ->]];
      [left; reflexivity | |]; right; left.
    + rewrite startSession_subtitle, with_props_subtitle. apply stopSession_subtitle.
    + apply stopSession_subtitle.
  - left. case_match; reflexivity.
  - left. case_match; [|reflexivity]. unfold resumeStart. destruct granted; [|reflexivity].
    rewrite connectSession_subtitle, renderVisualizer_subtitle, inputSetup_subtitle.
    reflexivity.
  - left. unfold onaudioprocess. repeat case_match; reflexivity.
  - left. repeat case_match; reflexivity.
  - destruct (sessions (page c) !! k) as [s|]; [|left; reflexivity].
    destruct (readyState s); try (left; reflexivity).
    unfold handleServerMessage.
    destruct (inlineAudio message) as [[buffer|e]|].
    + destruct (applyTranscription_subtitle message (playAudio buffer (cb_ctx s) now c))
        as [E | [t E]].
      * left. rewrite E. apply playAudio_subtitle.
      * right. right. exists t. exact E.
    + left. reflexivity.
    + destruct (applyTranscription_subtitle message c) as [E | [t E]].
      * left. exact E.
      * right. right. exists t. exact E.
  - left. repeat case_match; reflexivity.
  - left. repeat case_match; reflexivity.
  - left. unfold sourceEnded. case_match; reflexivity.
  - left. case_decide; [|reflexivity].
    rewrite renderVisualizer_subtitle. reflexivity.
  - unfold transcriptTimeout.
    destruct (transcriptTimeoutRef (refs c)); [right; left | left]; reflexivity.
Qed.

Lemma step_subtitle_ok c e :
  subtitle_ok (subtitle c) -> subtitle_ok (subtitle (step c e)).
Proof.
  intros H. destruct (step_subtitle_cases c e) as [-> | [-> | [t ->]]].
  - exact H.
  - left. reflexivity.
  - right. reflexivity.
Qed.

End Subtitle.

(** X13.  In every state reached from mount, a transcript on screen has
    its four-second timer pending, so the next firing of the timer
    clears it: no transcript stays for ever. *)
Theorem transcript_always_expires (es : list event) :
  (transcript (state (run mount es)) = None
   \/ transcriptTimeoutRef (refs (run mount es)) = true)
  /\ transcript (state (step (run mount es) TranscriptTimeout)) = None.
Proof.
  assert (H : subtitle_ok (subtitle (run mount es))).
  { apply (run_invariant (fun c => subtitle_ok (subtitle c)) step_subtitle_ok).
    left. reflexivity. }
  split; [exact H|].
  cbn [step]. unfold transcriptTimeout.
  destruct H as [H|H]; unfold subtitle in H; cbn [fst snd] in H.
  - destruct (transcriptTimeoutRef (refs (run mount es))); [reflexivity | exact H].
  - rewrite H. reflexivity.
Qed.

(** ** The refs along a run *)

Section RefsLive.

Lemma refs_live_same c c' : resources c' = resources c -> refs_live c -> refs_live c'.
Proof.
  unfold resources, refs_live. intros E.
  injection E as -> -> -> -> -> -> -> ->. exact id.
Qed.

Lemma stopSession_live c : refs_live (stopSession c).
Proof. rewrite stopSession_eq. unfold refs_live. cbn. tauto. Qed.

Lemma startSession_live c : refs_live c -> refs_live (startSession c).
Proof.
  unfold refs_live, startSession. cbn. intros (_ & Hs & Hn & Hk).
  split; [|tauto].
  rewrite lookup_app_r by lia. rewrite Nat.sub_diag. reflexivity.
Qed.

Lemma inputSetup_live p c : refs_live c -> refs_live (inputSetup p c).
Proof.
  unfold refs_live, inputSetup. cbn. intros (Ha & _ & _ & Hk).
  split; [exact Ha|]. split; [|split; [|exact Hk]].
  - rewrite lookup_app_r by lia. rewrite Nat.sub_diag. reflexivity.
  - rewrite lookup_app_r by lia. rewrite Nat.sub_diag. reflexivity.
Qed.

Lemma connectSession_live p c : refs_live c -> refs_live (connectSession p c).
Proof.
  unfold refs_live, connectSession. cbn. intros (Ha & Hs & Hn & _).
  split; [exact Ha|]. split; [exact Hs|]. split; [exact Hn|].
  rewrite lookup_app_r by lia. rewrite Nat.sub_diag. eexists. reflexivity.
Qed.

Lemma alter_sessions_live f k c :
  refs_live c -> refs_live (set_sessions (alter f k (sessions (page c))) c).
Proof.
  unfold refs_live. cbn. intros (Ha & Hs & Hn & Hk).
  split; [exact Ha|]. split; [exact Hs|]. split; [exact Hn|].
  destruct (sessionRef (refs c)) as [j|]; [|exact I].
  destruct Hk as [s Hk].
  rewrite list_lookup_alter.
  case_decide; [subst k|]; rewrite Hk; eexists; reflexivity.
Qed.

Lemma with_props_resources f c : resources (with_props f c) = resources c.
Proof. reflexivity. Qed.

Lemma renderVisualizer_resources inBins outBins c :
  resources (renderVisualizer inBins outBins c) = resources c.
Proof. unfold renderVisualizer. case_match; reflexivity. Qed.

Lemma handleServerMessage_resources message ctx now c :
  resources (handleServerMessage message ctx now c) = resources c.
Proof.
  unfold handleServerMessage, applyTranscription, playAudio.
  repeat case_match; reflexivity.
Qed.

Lemma step_refs_live c e : refs_live c -> refs_live (step c e).
Proof.
  intros H. destruct e; cbn [step].
  - destruct (render_cases true m c) as [-> | [-> | ->]]; [exact H | |].
    + apply startSession_live.
      eapply refs_live_same; [apply with_props_resources | apply stopSession_live].
    + apply stopSession_live.
  - destruct (render_cases false (mode (props c)) c) as [-> | [-> | ->]]; [exact H | |].
    + apply startSession_live.
      eapply refs_live_same; [apply with_props_resources | apply stopSession_live].
    + apply stopSession_live.
  - case_match; [|exact H]. revert H. apply refs_live_same. reflexivity.
  - case_match; [|exact H]. unfold resumeStart. destruct granted.
    + apply connectSession_live.
      eapply refs_live_same; [apply renderVisualizer_resources|].
      apply inputSetup_live. revert H. apply refs_live_same. reflexivity.
    + revert H. apply refs_live_same. reflexivity.
  - unfold onaudioprocess. repeat case_match; try exact H.
    apply alter_sessions_live, H.
  - repeat case_match; try exact H.
    apply (refs_live_same (set_readyState Open k c)); [reflexivity|].
    apply alter_sessions_live, H.
  - repeat case_match; try exact H.
    revert H. apply refs_live_same. apply handleServerMessage_resources.
  - repeat case_match; try exact H.
    + apply (refs_live_same (set_readyState Closed k c)); [reflexivity|].
      apply alter_sessions_live, H.
    + apply (refs_live_same (set_readyState Closed k c)); [reflexivity|].
      apply alter_sessions_live, H.
  - case_match; [|exact H]. revert H. apply refs_live_same. reflexivity.
  - unfold sourceEnded. case_match; [|exact H].
    revert H. apply refs_live_same. reflexivity.
  - case_decide; [|exact H]. revert H. apply refs_live_same.
    rewrite renderVisualizer_resources. reflexivity.
  - unfold transcriptTimeout. case_match; [|exact H].
    revert H. apply refs_live_same. reflexivity.
Qed.

End RefsLive.

(** X14.  In every state reached from mount, each ref that is set names
    an object that exists and has not been released: the playback
    context is not closed, the tracks of the stream are not stopped, the
    capture node is connected and the session exists.  So the releases
    of [stopSession] always act on live objects. *)
Theorem refs_never_dangle (es : list event) : refs_live (run mount es).
Proof.
  apply (run_invariant refs_live step_refs_live).
  unfold refs_live. cbn. tauto.
Qed.

(** ** A start suspended at the microphone prompt *)

Section PendingStarts.

Lemma with_props_page f c : page (with_props f c) = page c.
Proof. reflexivity. Qed.

Lemma with_props_props f c : props (with_props f c) = f (props c).
Proof. reflexivity. Qed.

(** What [stopSession] leaves of the page. *)
Lemma stopSession_view x :
  props (stopSession x) = props x
  /\ pending (page (stopSession x)) = pending (page x)
  /\ length (streams (page (stopSession x))) = length (streams (page x))
  /\ sessions (page (stopSession x)) = sessions (page x).
Proof.
  rewrite stopSession_eq. cbn [props page pending streams sessions].
  repeat split.
  destruct (streamRef (refs x)); [apply length_insert | reflexivity].
Qed.

(** What the close button leaves of the page. *)
Lemma close_view c :
  active (props (step c CloseClick)) = false
  /\ pending (page (step c CloseClick)) = pending (page c)
  /\ length (streams (page (step c CloseClick))) = length (streams (page c))
  /\ sessions (page (step c CloseClick)) = sessions (page c).
Proof.
  cbn [step]. unfold render. case_decide as Hd.
  - destruct Hd as [Ha _]. rewrite <- Ha. tauto.
  - destruct (stopSession_view
                (with_props (fun _ => {| active := false; mode := mode (props c) |})
                   (stopSession c))) as (-> & -> & -> & ->).
    rewrite with_props_page, with_props_props.
    destruct (stopSession_view c) as (_ & -> & -> & ->).
    tauto.
Qed.

(** The second half of [startSession], on any state. *)
Lemma resumed_view p inBins outBins x :
  let y := connectSession p (renderVisualizer inBins outBins (inputSetup p x)) in
  props y = props x
  /\ streamRef (refs y) = Some (length (streams (page x)))
  /\ streams (page y) = streams (page x) ++ [false]
  /\ inputNodeRef (refs y) = Some (length (processors (page x)))
  /\ processors (page y) =
       processors (page x) ++ [{| sp_connected := true; sp_isMuted := ps_isMuted p |}]
  /\ sessionRef (refs y) = Some (length (sessions (page x)))
  /\ sessions (page y) =
       sessions (page x) ++
         [{| readyState := Connecting; cb_ctx := ps_ctx p;
             systemMode := ps_mode p; sent := [] |}].
Proof.
  cbn zeta. unfold connectSession, renderVisualizer.
  destruct (negb (active (props (inputSetup p x)))); cbn; tauto.
Qed.

End PendingStarts.

(** X15.  Closing the overlay does not cancel a start that is waiting
    for the microphone: the suspended call stays pending, and when the
    microphone is granted afterwards it keeps the new stream unstopped,
    connects a capture node and opens a live session, with the overlay
    closed. *)
Theorem close_keeps_pending_start (c : VoiceInterface) (i : nat) (p : PendingStart)
    (inBins outBins : Uint8Array) :
  pending (page c) !! i = Some p ->
  let closed := step c CloseClick in
  let resumed := step closed (MicSettled i true inBins outBins) in
  pending (page closed) !! i = Some p
  /\ active (props resumed) = false
  /\ streamRef (refs resumed) = Some (length (streams (page c)))
  /\ streams (page resumed) !! length (streams (page c)) = Some false
  /\ (exists n, inputNodeRef (refs resumed) = Some n
        /\ processors (page resumed) !! n =
             Some {| sp_connected := true; sp_isMuted := ps_isMuted p |})
  /\ sessionRef (refs resumed) = Some (length (sessions (page c)))
  /\ sessions (page resumed) !! length (sessions (page c)) =
       Some {| readyState := Connecting; cb_ctx := ps_ctx p;
               systemMode := ps_mode p; sent := [] |}.
Proof.
  intros Hp closed resumed.
  destruct (close_view c) as (Ha & Hpend & Hstr & Hses).
  fold closed in Ha, Hpend, Hstr, Hses.
  assert (Hp' : pending (page closed) !! i = Some p) by (rewrite Hpend; exact Hp).
  split; [exact Hp'|].
  subst resumed. cbn [step]. rewrite Hp'. unfold resumeStart.
  destruct (resumed_view p inBins outBins
              (set_pending (delete i (pending (page closed))) closed))
    as (Epr & Esr & Est & Enr & Epc & Ekr & Eks).
  rewrite Epr, Esr, Est, Enr, Epc, Ekr, Eks.
  change (props (set_pending _ closed)) with (props closed).
  change (streams (page (set_pending _ closed))) with (streams (page closed)).
  change (sessions (page (set_pending _ closed))) with (sessions (page closed)).
  change (processors (page (set_pending _ closed))) with (processors (page closed)).
  rewrite Hstr, Hses. split; [exact Ha|]. split; [reflexivity|]. split.
  { rewrite lookup_app_r by lia. rewrite <- Hstr, Nat.sub_diag. reflexivity. }
  split.
  { eexists. split; [reflexivity|].
    rewrite lookup_app_r by lia. rewrite Nat.sub_diag. reflexivity. }
  split; [reflexivity|].
  rewrite lookup_app_r by lia. rewrite Nat.sub_diag. reflexivity.
Qed.

Lemma close_keeps_pending_start_witness :
  let c := step mount (VoiceStart Collaborative) in
  let resumed := step (step c CloseClick) (MicSettled 0 true [] []) in
  active (props resumed) = false /\ sessionRef (refs resumed) = Some 0%nat.
Proof.
  intros c resumed.
  destruct (close_keeps_pending_start c 0
              {| ps_ctx := 0; ps_isMuted := false; ps_mode := Collaborative |} [] [])
    as (_ & Ha & _ & _ & _ & Hk & _).
  - vm_compute. reflexivity.
  - split; [exact Ha | exact Hk].
Defined.

(** ** Text requests *)

Section Requests.

Lemma string_length_app (s t : string) :
  String.length (s +:+ t) = (String.length s + String.length t)%nat.
Proof. induction s as [|a s IH]; simpl; [reflexivity | rewrite IH; reflexivity]. Qed.

Lemma substring_app_l (h t : string) :
  substring 0 (String.length h) (h +:+ t) = h.
Proof.
  induction h as [|a h IH]; simpl.
  - destruct t; reflexivity.
  - rewrite IH. reflexivity.
Qed.

Lemma substring_app_r (h t : string) (m : nat) :
  substring (String.length h) m (h +:+ t) = substring 0 m t.
Proof. induction h as [|a h IH]; simpl; [reflexivity | exact IH]. Qed.

Lemma substring_length (n : nat) (s : string) :
  (n <= String.length s)%nat -> String.length (substring 0 n s) = n.
Proof.
  revert s. induction n as [|n IH]; intros s H.
  - destruct s; reflexivity.
  - destruct s as [|a s]; cbn in H; [lia|].
    cbn. rewrite IH by lia. reflexivity.
Qed.

Lemma toLowerCase_empty (s : string) : toLowerCase s = EmptyString <-> s = EmptyString.
Proof. destruct s; cbn; split; congruence. Qed.

Lemma attachment_file (file : option (File * string)) :
  attachment (imageBase64 file) (mimeType_of file) =
  match file with
  | Some (f, d) =>
      match d, file_type f with
      | EmptyString, _ | _, EmptyString => None
      | _, _ => Some (d, toLowerCase (file_type f))
      end
  | None => None
  end.
Proof.
  destruct file as [[[t] d]|]; [|reflexivity].
  destruct d as [|a d]; [reflexivity|].
  destruct t as [|b t]; reflexivity.
Qed.

End Requests.

(** X16.  The name given to a creation is never empty and has at most
    33 characters: a prompt of 1 to 30 characters is its own name, a
    longer one is cut to 30 characters followed by three dots. *)
Theorem creation_name_bounds (promptText : string) :
  creationName promptText <> EmptyString
  /\ (String.length (creationName promptText) <= 33)%nat
  /\ ((1 <= String.length promptText <= 30)%nat -> creationName promptText = promptText)
  /\ ((30 < String.length promptText)%nat ->
        String.length (creationName promptText) = 33%nat
        /\ substring 0 30 (creationName promptText) = substring 0 30 promptText
        /\ substring 30 3 (creationName promptText) = "...").
Proof.
  unfold creationName.
  destruct (30 <? String.length promptText)%nat eqn:E.
  - apply Nat.ltb_lt in E.
    assert (L : String.length (substring 0 30 promptText) = 30%nat)
      by (apply substring_length; lia).
    assert (L' : String.length (substring 0 30 promptText +:+ "...") = 33%nat)
      by (rewrite string_length_app, L; reflexivity).
    split; [|split; [|split]].
    + intros H. rewrite H in L'. discriminate.
    + lia.
    + lia.
    + intros _. split; [exact L'|].
      remember (substring 0 30 promptText) as h eqn:Eh. rewrite <- L. split.
      * apply substring_app_l.
      * apply substring_app_r.
  - apply Nat.ltb_ge in E.
    destruct promptText as [|a s].
    + split; [discriminate|]. split; [cbn; lia|]. split; [cbn; lia | lia].
    + split; [discriminate|]. split; [lia|]. split; [reflexivity | lia].
Qed.

Section Submissions.

Lemma trimStart_empty (s : CodeUnits) : trimStart s = [] <-> hasVisible s = false.
Proof.
  induction s as [|u s IH]; simpl; [tauto|].
  destruct (isWhiteSpace u); simpl; [exact IH|]. split; discriminate.
Qed.

Lemma hasVisible_trimStart (s : CodeUnits) : hasVisible (trimStart s) = hasVisible s.
Proof.
  induction s as [|u s IH]; simpl; [reflexivity|].
  destruct (isWhiteSpace u) eqn:E; simpl; [exact IH | rewrite E; reflexivity].
Qed.

Lemma hasVisible_app (s t : CodeUnits) :
  hasVisible (s ++ t) = hasVisible s || hasVisible t.
Proof.
  induction s as [|u s IH]; simpl; [reflexivity|].
  rewrite IH. apply orb_assoc.
Qed.

Lemma hasVisible_rev (s : CodeUnits) : hasVisible (rev s) = hasVisible s.
Proof.
  induction s as [|u s IH]; simpl; [reflexivity|].
  rewrite hasVisible_app, IH. simpl. rewrite orb_false_r. apply orb_comm.
Qed.

Lemma rev_empty {A : Type} (l : list A) : rev l = [] <-> l = [].
Proof.
  split; intros H; [|rewrite H; reflexivity].
  rewrite <- (rev_involutive l), H. reflexivity.
Qed.

Lemma trim_empty (s : CodeUnits) : trim s = [] <-> hasVisible s = false.
Proof.
  unfold trim, trimEnd. split; intros H.
  - apply rev_empty, trimStart_empty in H.
    rewrite hasVisible_rev, hasVisible_trimStart in H. exact H.
  - apply rev_empty, trimStart_empty.
    rewrite hasVisible_rev, hasVisible_trimStart. exact H.
Qed.

Lemma userContent_empty (prompt : string) (fileBase64 mimeType : option string) :
  userContent prompt fileBase64 mimeType = EmptyString
  <-> prompt = EmptyString /\ attachment fileBase64 mimeType = None.
Proof.
  unfold userContent.
  destruct (attachment fileBase64 mimeType) as [[d m]|], prompt as [|a p].
  - destruct (String.prefix "audio/" m), (String.prefix "video/" m);
      (split; [discriminate | intros [_ E]; discriminate E]).
  - split; [discriminate | intros [E _]; discriminate E].
  - tauto.
  - split; [discriminate | intros [E _]; discriminate E].
Qed.

Lemma attachment_none (file : option File) (base64 : string) :
  attachment (imageBase64 (withBase64 file base64)) (mimeType_of (withBase64 file base64))
    = None
  <-> file = None
      \/ exists f, file = Some f /\ (base64 = EmptyString \/ file_type f = EmptyString).
Proof.
  rewrite attachment_file.
  destruct file as [[t]|]; simpl; [|tauto].
  destruct base64 as [|a d], t as [|b t]; simpl; split; intros H;
    try discriminate H; try reflexivity.
  - right. eexists. split; [reflexivity|]. left. reflexivity.
  - right. eexists. split; [reflexivity|]. left. reflexivity.
  - right. eexists. split; [reflexivity|]. right. reflexivity.
  - destruct H as [H | (f & E & [H | H])]; [discriminate H | discriminate H |].
    injection E as <-. discriminate H.
Qed.

End Submissions.

(** X17.  A request carries the file as inline data exactly when the new
    creation keeps it as [originalImage], with the same data and MIME
    type; the file is left out of both when [fileToBase64] resolves to
    the empty string or the file has no type. *)
Theorem file_sent_iff_image_kept (promptText : string) (file : option File)
    (base64 : string) (previousMemory : option string) :
  let sent := withBase64 file base64 in
  let request := generateRequest promptText sent previousMemory in
  (originalImage sent = None <-> length request = 1%nat)
  /\ (originalImage sent = None
      <-> file = None
          \/ exists f, file = Some f /\ (base64 = EmptyString \/ file_type f = EmptyString))
  /\ (forall f, file = Some f -> base64 <> EmptyString -> file_type f <> EmptyString ->
        request !! 1%nat = Some (InlineDataPart base64 (toLowerCase (file_type f)))
        /\ originalImage sent =
             Some ("data:" +:+ toLowerCase (file_type f) +:+ ";base64," +:+ base64)).
Proof.
  intros sent request.
  assert (Hn := attachment_none file base64). fold sent in Hn.
  subst request. unfold generateRequest, requestParts, originalImage.
  split; [|split].
  - destruct (attachment (imageBase64 sent) (mimeType_of sent)) as [[d m]|]; simpl;
      split; intros H; try discriminate H; reflexivity.
  - rewrite <- Hn.
    destruct (attachment (imageBase64 sent) (mimeType_of sent)) as [[d m]|];
      split; intros H; try discriminate H; reflexivity.
  - intros [t] -> Hb Ht. subst sent. rewrite attachment_file. simpl in *.
    destruct base64 as [|a d]; [congruence|].
    destruct t as [|b t]; [congruence|]. split; reflexivity.
Qed.

(** X18.  The submit handler of the input area does nothing exactly when
    no file is chosen and the text holds nothing but white space, that
    of Unicode included (U+3000, U+FEFF, the line separators);
    otherwise it hands the text, untrimmed, and the file to
    [onGenerate]. *)
Theorem nothing_submitted_iff_blank (text : CodeUnits) (file : option File) :
  (handleSubmit text file = None <-> file = None /\ hasVisible text = false)
  /\ (file <> None \/ hasVisible text = true -> handleSubmit text file = Some (text, file)).
Proof.
  assert (H := trim_empty text). unfold handleSubmit. split; [split|].
  - intros E. destruct (trim text), file; try discriminate E.
    split; [reflexivity | apply H; reflexivity].
  - intros [-> Hv]. apply H in Hv. rewrite Hv. reflexivity.
  - intros Hor. destruct (trim text), file as [f|]; try reflexivity.
    exfalso. destruct Hor as [Hne | Hv]; [congruence|].
    assert (hasVisible text = false) by (apply H; reflexivity). congruence.
Qed.

(** X19.  The user content of a request is empty exactly when the prompt
    is empty and no file goes with the request (none chosen, empty
    data, or no type); a prompt that is not empty is the user content
    as it is, and an empty one sent with a file is replaced by a
    sentence that is not empty. *)
Theorem user_content_empty_iff (text : string) (file : option File) (base64 : string) :
  let sent := withBase64 file base64 in
  (userContent text (imageBase64 sent) (mimeType_of sent) = EmptyString
   <-> text = EmptyString
       /\ (file = None
           \/ exists f, file = Some f
                        /\ (base64 = EmptyString \/ file_type f = EmptyString)))
  /\ (text <> EmptyString -> userContent text (imageBase64 sent) (mimeType_of sent) = text).
Proof.
  intros sent. split.
  - rewrite userContent_empty. subst sent. rewrite attachment_none. tauto.
  - intros Hne. unfold userContent.
    destruct (attachment (imageBase64 sent) (mimeType_of sent)) as [[d m]|];
      destruct text; congruence.
Qed.
